(** * The path model and the directory lister of [app/run.js]

    A shallow embedding of the [FilePath] class and of [IO.ls] from the
    Node.js bootstrap script of jsdoc-toolkit, and the properties of them
    that the specification states.

    Modelling conventions.
    - A JavaScript string is a [string]: the sequence of its code units,
      each below 256.  On these [toLowerCase] lowers the letters A to Z and
      the capital letters of the range 192 to 222, as the built-in does; a
      regular expression with the flag [i] folds the case of the letters A
      to Z only, since its patterns here are ASCII.
    - A JavaScript array is a [list]; [push] appends at the end, [pop]
      removes the last element and does nothing on the empty array.
    - A method that mutates [this] is a function from the fields of [this]
      before the call to the fields after the call.  Object identity (what
      [return this] hands back) is modelled by a store of objects, [Obj].
    - A call that may throw returns a [completion].  [IO.ls] recurses, so it
      is defined with fuel and returns a [result]; the entry point supplies
      fuel from the depth argument and is shown never to run out. *)

From Stdlib Require Import Ascii.
From stdpp Require Import base option list strings gmap.

(** ** JavaScript values, completions and built-ins *)

Module JS.

Inductive value :=
  | VUndefined
  | VNull
  | VBool (b : bool)
  | VNumber (z : Z)
  | VString (s : string).

Inductive errno := ENOENT | ENOTDIR | EACCES.

Inductive exn :=
  | TypeError
  | FsError (code : errno).

Inductive completion (A : Type) :=
  | Normal (a : A)
  | Throw (e : exn).
Arguments Normal {A} a.
Arguments Throw {A} e.

#[global] Instance completion_ret : MRet completion := fun _ a => Normal a.
#[global] Instance completion_bind : MBind completion := fun _ _ k c =>
  match c with
  | Normal a => k a
  | Throw e => Throw e
  end.

(** A string is truthy when it is not empty. *)
Definition truthy (s : string) : bool :=
  match s with
  | EmptyString => false
  | String _ _ => true
  end.

(** [s.split(sep)] for a separator that matches exactly one character: the
    pieces between the matches, in order; never the empty array. *)
Fixpoint split (sep : ascii -> bool) (s : string) : list string :=
  match s with
  | EmptyString => [EmptyString]
  | String c rest =>
      if sep c then EmptyString :: split sep rest
      else match split sep rest with
           | [] => [String c EmptyString]
           | tok :: toks => String c tok :: toks
           end
  end.

(** [v.split(sep)]: only a string has the method. *)
Definition call_split (sep : ascii -> bool) (v : value) : completion (list string) :=
  match v with
  | VString s => Normal (split sep s)
  | _ => Throw TypeError
  end.

(** [a.join(sep)]: the elements from left to right, [sep] before every
    element but the first. *)
Definition join_step (sep : string) (acc : nat * string) (elem : string) : nat * string :=
  let '(k, R) := acc in
  (S k, (if (0 <? k)%nat then R +:+ sep else R) +:+ elem).

Definition join (sep : string) (a : list string) : string :=
  snd (fold_left (join_step sep) a (0%nat, EmptyString)).

(** [a.push(x)] and [a.pop()] as functions on the contents of [a]. *)
Definition push {A} (a : list A) (x : A) : list A := a ++ [x].
Definition pop {A} (a : list A) : list A := removelast a.

(** [a.shift()]: the first element, if any, and the rest. *)
Definition shift {A} (a : list A) : option A * list A :=
  match a with
  | [] => (None, [])
  | x :: r => (Some x, r)
  end.

(** The element that [a.pop()] returns. *)
Definition popped {A} (a : list A) : option A := last a.

(** The case fold of the letters A to Z: what tells a code unit from an
    ASCII character of a pattern under the flag [i] (without the flag [u],
    a code unit of 128 or more never folds to an ASCII one). *)
Definition lower_ascii (c : ascii) : ascii :=
  let n := nat_of_ascii c in
  if ((65 <=? n) && (n <=? 90))%nat then ascii_of_nat (n + 32) else c.

Fixpoint fold_case (s : string) : string :=
  match s with
  | EmptyString => EmptyString
  | String c rest => String (lower_ascii c) (fold_case rest)
  end.

(** The lower case of a code unit below 256: the letters A to Z, and the
    capital letters from 192 to 222 but the sign 215, have theirs 32
    further; every other code unit is its own. *)
Definition lower_unit (c : ascii) : ascii :=
  let n := nat_of_ascii c in
  if (((65 <=? n) && (n <=? 90)) ||
      ((192 <=? n) && (n <=? 214)) ||
      ((216 <=? n) && (n <=? 222)))%nat
  then ascii_of_nat (n + 32) else c.

(** [s.toLowerCase()] *)
Fixpoint toLowerCase (s : string) : string :=
  match s with
  | EmptyString => EmptyString
  | String c rest => String (lower_unit c) (toLowerCase rest)
  end.

(** [s] without the prefix [pat], when it starts with it. *)
Fixpoint strip_prefix (pat s : string) : option string :=
  match pat, s with
  | EmptyString, _ => Some s
  | String p pat', String c s' => if Ascii.eqb p c then strip_prefix pat' s' else None
  | String _ _, EmptyString => None
  end.

(** [s.replace(pat, rep)] with a string pattern: the first occurrence only. *)
Fixpoint replace (pat rep s : string) : string :=
  match strip_prefix pat s with
  | Some rest => rep +:+ rest
  | None =>
      match s with
      | EmptyString => EmptyString
      | String c s' => String c (replace pat rep s')
      end
  end.

(** [s.lastIndexOf(c)] for a string [c] of one character: the index of its
    last occurrence, [-1] when there is none. *)
Fixpoint lastIndexOf (c : ascii) (s : string) : Z :=
  match s with
  | EmptyString => (-1)%Z
  | String d rest =>
      let r := lastIndexOf c rest in
      if (0 <=? r)%Z then (r + 1)%Z
      else if Ascii.eqb d c then 0%Z else (-1)%Z
  end.

(** An index brought into the range [0 .. len]. *)
Definition clamp (len : nat) (z : Z) : nat :=
  Z.to_nat (Z.min (Z.max z 0) (Z.of_nat len)).

(** [s.substring(start, end)]; [end] is [None] when it is left out.  Both
    indices are clamped, and swapped when [start] is the larger. *)
Definition substring (s : string) (start : Z) (end_ : option Z) : string :=
  let len := String.length s in
  let intStart := clamp len start in
  let intEnd := match end_ with
                | None => len
                | Some e => clamp len e
                end in
  let from := Nat.min intStart intEnd in
  let to := Nat.max intStart intEnd in
  String.substring from (to - from) s.

(** [s.substr(start, length)]: a negative [start] counts from the end; at
    most [length] characters are taken. *)
Definition substr (s : string) (start : Z) (length : option Z) : string :=
  let size := Z.of_nat (String.length s) in
  let intStart := if (start <? 0)%Z then Z.max (size + start) 0
                  else Z.min start size in
  let intLength := match length with
                   | None => size
                   | Some l => Z.min (Z.max l 0) size
                   end in
  let intEnd := Z.min (intStart + intLength) size in
  String.substring (Z.to_nat intStart) (Z.to_nat (intEnd - intStart)) s.

End JS.

(** ** [FilePath] *)

Module FilePath.
Import JS.

Record t := mk {
  slash : string;
  root : string;
  path : list string;
  file : string
}.

Definition set_root (v : string) (this : t) : t :=
  {| slash := slash this; root := v; path := path this; file := file this |}.
Definition set_path (v : list string) (this : t) : t :=
  {| slash := slash this; root := root this; path := v; file := file this |}.
Definition set_file (v : string) (this : t) : t :=
  {| slash := slash this; root := root this; path := path this; file := v |}.

(** The class [[\\\/]] of the constructor's split. *)
Definition is_slash (c : ascii) : bool :=
  (Ascii.eqb c "\" || Ascii.eqb c "/")%char.

(** One turn of the loop of [resolvePath]. *)
Definition resolve_step (resolvedPath : list string) (item : string) : list string :=
  if String.eqb item ".." then pop resolvedPath
  else if negb (String.eqb item ".") then push resolvedPath item
  else resolvedPath.

Definition resolvePath (this : t) : list string :=
  fold_left resolve_step (path this) [].

(** [new FilePath(absPath, separator)]; [separator] is [None] when the
    argument is left out. *)
Definition new (absPath : value) (separator : option string) : completion t :=
  let sl := match separator with
            | Some s => if truthy s then s else "/"
            | None => "/"
            end in
  let this := {| slash := sl; root := sl; path := []; file := "" |} in
  parts ← call_split is_slash absPath;
  let '(this, parts) :=
    match shift parts with
    | (Some first, rest) => (set_root (first +:+ slash this) this, rest)
    | (None, rest) => (this, rest)
    end in
  let '(this, parts) :=
    match popped parts with
    | Some l => (set_file l this, pop parts)
    | None => (this, parts)
    end in
  let this := if (0 <? length parts)%nat then set_path parts this else this in
  mret (set_path (resolvePath this) this).

Definition toDir (this : t) : t :=
  if truthy (file this) then set_file "" this else this.

Definition upDir (this : t) : t :=
  let this := toDir this in
  if (0 <? length (path this))%nat then set_path (pop (path this)) this else this.

Definition toString (this : t) : string :=
  root this
  +:+ join (slash this) (path this)
  +:+ (if (0 <? length (path this))%nat then slash this else "")
  +:+ file this.

(** [filename.split(".").pop().toLowerCase()]; [undefined] has no
    [toLowerCase]. *)
Definition fileExtension (filename : string) : completion string :=
  match popped (split (Ascii.eqb ".") filename) with
  | Some ext => Normal (toLowerCase ext)
  | None => Throw TypeError
  end.

(** [FilePath.fileName(path)] *)
Definition fileName (path : string) : string :=
  let nameStart :=
    Z.max (Z.max (lastIndexOf "/" path + 1) (lastIndexOf "\" path + 1)) 0 in
  substring path nameStart None.

(** [FilePath.dir(path)] *)
Definition dir (path : string) : string :=
  let nameStart :=
    Z.max (Z.max (lastIndexOf "/" path + 1) (lastIndexOf "\" path + 1)) 0 in
  substring path 0 (Some (nameStart - 1)%Z).

End FilePath.

(** ** [FilePath] objects in a store

    [new] allocates the object; [toDir] and [upDir] update it in place and
    return the reference they were called on; [toString] only reads it.  A
    method called on a reference that the store does not hold has no
    result: the code never does that. *)

Module Obj.
Import JS.

Abbreviation store := (gmap nat FilePath.t).

Definition new (absPath : value) (separator : option string) (h : store)
  : completion (nat * store) :=
  this ← FilePath.new absPath separator;
  let r := fresh (dom h) in
  mret (r, <[r := this]> h).

Definition toDir (this : nat) (h : store) : option (nat * store) :=
  o ← h !! this;
  Some (this, <[this := FilePath.toDir o]> h).

Definition upDir (this : nat) (h : store) : option (nat * store) :=
  o ← h !! this;
  Some (this, <[this := FilePath.upDir o]> h).

Definition toString (this : nat) (h : store) : option (string * store) :=
  o ← h !! this;
  Some (FilePath.toString o, h).

End Obj.

(** ** [IO.ls] *)

Module IO.
Import JS.

Record Stats := { isDirectory : bool }.

(** The two calls of Node's [fs] that [IO.ls] makes. *)
Record fs := {
  statSync : string -> completion Stats;
  readdirSync : string -> completion (list string)
}.

Inductive result (A : Type) :=
  | Ok (a : A)
  | Raise (e : exn)
  | OutOfFuel.
Arguments Ok {A} a.
Arguments Raise {A} e.
Arguments OutOfFuel {A}.

#[global] Instance result_ret : MRet result := fun _ a => Ok a.
#[global] Instance result_bind : MBind result := fun _ _ k r =>
  match r with
  | Ok a => k a
  | Raise e => Raise e
  | OutOfFuel => OutOfFuel
  end.

Definition lift {A} (c : completion A) : result A :=
  match c with
  | Normal a => Ok a
  | Throw e => Raise e
  end.

(** [file.match(/^\.[^\.\/\\]/)] *)
Definition is_dot_file (file : string) : bool :=
  match file with
  | String "."%char (String c _) =>
      negb (Ascii.eqb c "." || Ascii.eqb c "/" || Ascii.eqb c "\")
  | _ => false
  end.

(** The contents of the two arrays that every level of the recursion
    shares. *)
Record arrays := {
  _allFiles : list string;
  _path : list string
}.

Section Ls.
Context (F : fs).

(** The body of the [for] loop for one entry.  [self] is the recursive call
    [IO.ls(dir, recurse, _allFiles, _path)]. *)
Definition ls_entry (self : string -> Z -> arrays -> result (list string * arrays))
    (recurse : Z) (a : arrays) (file : string) : result arrays :=
  if is_dot_file file then mret a
  else
    s ← lift (statSync F (join "/" (_path a) +:+ "/" +:+ file));
    if isDirectory s then
      let a := {| _allFiles := _allFiles a; _path := push (_path a) file |} in
      a ← (if (Z.of_nat (length (_path a)) - 1 <? recurse)%Z
           then r ← self (join "/" (_path a)) recurse a; mret (snd r)
           else mret a);
      mret {| _allFiles := _allFiles a; _path := pop (_path a) |}
    else
      mret {| _allFiles :=
                push (_allFiles a)
                     (replace "//" "/" (join "/" (_path a) +:+ "/" +:+ file));
              _path := _path a |}.

Fixpoint for_files (body : arrays -> string -> result arrays)
    (files : list string) (a : arrays) : result arrays :=
  match files with
  | [] => mret a
  | file :: rest => a ← body a file; for_files body rest a
  end.

(** [IO.ls(dir, recurse, _allFiles, _path)]: the returned array and the
    contents of the shared arrays at the return. *)
Fixpoint ls_fuel (fuel : nat) (dir : string) (recurse : option Z)
    (allFiles : list string) (path : option (list string))
  : result (list string * arrays) :=
  match fuel with
  | O => OutOfFuel
  | S fuel =>
      let a := match path with
               | None => {| _allFiles := []; _path := [dir] |}
               | Some p => {| _allFiles := allFiles; _path := p |}
               end in
      if (length (_path a) =? 0)%nat then mret (_allFiles a, a)
      else
        let recurse := match recurse with
                       | None => 1%Z
                       | Some r => r
                       end in
        s ← lift (statSync F dir);
        if negb (isDirectory s) then mret ([dir], a)
        else
          files ← lift (readdirSync F dir);
          a ← for_files
                (ls_entry (fun d r a => ls_fuel fuel d (Some r) (_allFiles a) (Some (_path a)))
                          recurse)
                files a;
          mret (_allFiles a, a)
  end.

(** The depth that the recursion can reach bounds the fuel it needs. *)
Definition fuel_for (recurse : option Z) : nat :=
  S (Z.to_nat (default 1%Z recurse)).

(** [IO.ls(dir, recurse)] as the rest of the program calls it. *)
Definition ls (dir : string) (recurse : option Z) : result (list string) :=
  r ← ls_fuel (fuel_for recurse) dir recurse [] None;
  mret (fst r).

End Ls.

(** *** What the specification says of failures *)

Section Failures.
Context (F : fs) (dir : string) (recurse : Z).

(** The directories that the traversal enters when nothing fails, each as
    the contents of [_path] on entry. *)
Inductive entered : list string -> Prop :=
  | entered_start :
      statSync F dir = Normal {| isDirectory := true |} ->
      entered [dir]
  | entered_sub path files file :
      entered path ->
      readdirSync F (join "/" path) = Normal files ->
      In file files ->
      is_dot_file file = false ->
      statSync F (join "/" path +:+ "/" +:+ file) = Normal {| isDirectory := true |} ->
      (Z.of_nat (length path) < recurse)%Z ->
      entered (path ++ [file]).

(** Reading an entered directory fails with [e]. *)
Definition read_failure (e : exn) : Prop :=
  exists path, entered path /\ readdirSync F (join "/" path) = Throw e.

(** The status of an entry, not a dot file, of an entered directory cannot
    be had: the call fails with [e]. *)
Definition entry_failure (e : exn) : Prop :=
  exists path files file,
    entered path /\ readdirSync F (join "/" path) = Normal files /\
    In file files /\ is_dot_file file = false /\
    statSync F (join "/" path +:+ "/" +:+ file) = Throw e.

(** The condition of the specification: the start path does not exist, or
    reading a directory reached within the depth bound fails. *)
Definition spec_failure : Prop :=
  (exists e, statSync F dir = Throw e) \/ (exists e, read_failure e).

(** A failure below the start path. *)
Definition failure (e : exn) : Prop :=
  read_failure e \/ entry_failure e.

(** The path pushed for an entry that is a plain file and not a dot file,
    in an entered directory. *)
Definition listed (x : string) : Prop :=
  exists path files file,
    entered path /\ readdirSync F (join "/" path) = Normal files /\
    In file files /\ is_dot_file file = false /\
    statSync F (join "/" path +:+ "/" +:+ file) = Normal {| isDirectory := false |} /\
    x = replace "//" "/" (join "/" path +:+ "/" +:+ file).

(** What one turn of the loop, or the whole loop, in the directory [path]
    may do to the arrays [a]: add listed paths to [_allFiles] and leave
    [_path] as it was, or throw for a failure. *)
Definition loop_outcome (path : list string) (a : arrays) (r : result arrays) : Prop :=
  match r with
  | Ok a' =>
      _path a' = path /\
      exists new, _allFiles a' = _allFiles a ++ new /\ Forall listed new
  | Raise e => failure e
  | OutOfFuel => False
  end.

(** The same for a call of [IO.ls] on the directory [path], which returns
    the shared array [_allFiles]. *)
Definition call_outcome (path : list string) (a : arrays)
    (r : result (list string * arrays)) : Prop :=
  match r with
  | Ok (ret, a') => ret = _allFiles a' /\ loop_outcome path a (Ok a')
  | Raise e => failure e
  | OutOfFuel => False
  end.

(** A call on the directory [path] throws, whatever [_allFiles] holds, given
    the fuel that the remaining depth asks for. *)
Definition always_raises (path : list string) : Prop :=
  forall n all,
    (Z.to_nat (recurse - Z.of_nat (length path)) < n)%nat ->
    exists e, ls_fuel F n (join "/" path) (Some recurse) all (Some path) = Raise e.

End Failures.

(** *** A file system given by a tree *)

#[local] Set Warnings "-register-all".

Inductive node :=
  | File
  | Dir (entries : list (string * node))
  | BrokenLink.

Fixpoint find (name : string) (entries : list (string * node)) : option node :=
  match entries with
  | [] => None
  | (n, x) :: rest => if String.eqb n name then Some x else find name rest
  end.

Fixpoint lookup (names : list string) (x : node) : option node :=
  match names with
  | [] => Some x
  | n :: rest =>
      match x with
      | Dir entries =>
          match find n entries with
          | Some y => lookup rest y
          | None => None
          end
      | _ => None
      end
  end.

(** The names of a path; empty ones, from doubled separators, do not
    count. *)
Definition names_of (p : string) : list string :=
  filter (fun n => n <> "") (split (Ascii.eqb "/") p).

(** The file system whose working directory is [cwd].  A symbolic link
    whose target is missing is listed by its directory and has no status. *)
Definition tree_fs (cwd : node) : fs := {|
  statSync p :=
    match lookup (names_of p) cwd with
    | Some File => Normal {| isDirectory := false |}
    | Some (Dir _) => Normal {| isDirectory := true |}
    | Some BrokenLink => Throw (FsError ENOENT)
    | None => Throw (FsError ENOENT)
    end;
  readdirSync p :=
    match lookup (names_of p) cwd with
    | Some (Dir entries) => Normal (map fst entries)
    | Some File => Throw (FsError ENOTDIR)
    | Some BrokenLink => Throw (FsError ENOENT)
    | None => Throw (FsError ENOENT)
    end
|}.

(** The tree [root/{x.js, sub/{y.js, .hidden.js}}]; [top] and [sub] are the
    entries of [root] and of [sub] in the order in which they are read. *)
Definition sub_entries : list (string * node) :=
  [("y.js", File); (".hidden.js", File)].
Definition root_entries (sub : list (string * node)) : list (string * node) :=
  [("x.js", File); ("sub", Dir sub)].
Definition example_fs (top : list (string * node)) : fs :=
  tree_fs (Dir [("root", Dir top)]).

(** A directory that holds a dangling symbolic link. *)
Definition dangling_fs : fs :=
  tree_fs (Dir [("root", Dir [("link", BrokenLink)])]).

(** *** What a successful call lists *)

(** A call on the directory [path] that returns has [x] in [_allFiles]. *)
Definition always_lists (F : fs) (recurse : Z) (path : list string) (x : string) : Prop :=
  forall n all ret a',
    (Z.to_nat (recurse - Z.of_nat (length path)) < n)%nat ->
    ls_fuel F n (join "/" path) (Some recurse) all (Some path) = Ok (ret, a') ->
    In x (_allFiles a').

(** The status of the entry [file] of [dir] says directory. *)
Definition entry_is_directory (F : fs) (dir file : string) : bool :=
  match statSync F (dir +:+ "/" +:+ file) with
  | Normal s => isDirectory s
  | Throw _ => false
  end.

(** The paths of the entries of [dir] that are neither dot files nor
    directories, in the order of [files]. *)
Definition flat_listing (F : fs) (dir : string) (files : list string) : list string :=
  map (fun file => replace "//" "/" (dir +:+ "/" +:+ file))
      (List.filter (fun file => negb (is_dot_file file) && negb (entry_is_directory F dir file))
                   files).

(** *** [IO.includeDir] *)

(** A regular expression [/pat$/i] of plain characters: some suffix of [s]
    is [pat] up to the case of the letters. *)
Fixpoint ends_with_ci (pat s : string) : bool :=
  String.eqb (fold_case s) (fold_case pat) ||
  match s with
  | EmptyString => false
  | String _ rest => ends_with_ci pat rest
  end.


Section IncludeDir.
Context {W : Type}.
(** [load(file)] runs a script, which may do anything to the state [W] of
    the program, and may throw. *)
Context (load : string -> W -> completion W).
(** [SYS.pwd] *)
Context (pwd : string).
Context (F : fs).

(** The loop of [includeDir] from the index of the head of [lib] on. *)
Fixpoint include_loop (lib : list string) (w : W) : result W :=
  match lib with
  | [] => mret w
  | file :: rest =>
      w ← (if ends_with_ci ".js" file then lift (load file w) else mret w);
      include_loop rest w
  end.

Definition includeDir (path : string) (w : W) : result W :=
  if negb (truthy path) then mret w
  else
    lib ← ls F (pwd +:+ path) None;
    include_loop lib w.

(** Loading the files of a list in turn, up to the first that throws. *)
Fixpoint load_all (files : list string) (w : W) : result W :=
  match files with
  | [] => Ok w
  | file :: rest =>
      match load file w with
      | Normal w' => load_all rest w'
      | Throw e => Raise e
      end
  end.

End IncludeDir.

(** *** [IO.exists], [IO.makeDir] and [IO.mkPath] *)

(** A file system in which directories can be made: its states, the
    status call and [fs.mkdirSync]. *)
Record wfs (D : Type) := {
  w_statSync : D -> string -> completion Stats;
  w_mkdirSync : D -> string -> completion D
}.
Arguments w_statSync {D} _ _ _.
Arguments w_mkdirSync {D} _ _ _.

(** The argument of [mkPath]: an array of names, or a string to split. *)
Inductive path_arg :=
  | PathArray (names : list string)
  | PathString (s : string).

Section MkPath.
Context {D : Type} (G : wfs D).

(** [IO.exists(path)]: the status call did not throw. *)
Definition exists_ (path : string) (d : D) : bool :=
  match w_statSync G d path with
  | Normal _ => true
  | Throw _ => false
  end.

Definition makeDir (path : string) (d : D) : completion D :=
  w_mkdirSync G d path.

(** The loop of [mkPath] from the index of the head of [names] on; [make]
    is the path built so far. *)
Fixpoint mkPath_loop (names : list string) (make : string) (d : D) : completion D :=
  match names with
  | [] => mret d
  | name :: rest =>
      let make := make +:+ (name +:+ "/") in
      d ← (if negb (exists_ make d) then makeDir make d else mret d);
      mkPath_loop rest make d
  end.

Definition mkPath (path : path_arg) (d : D) : completion D :=
  let names := match path with
               | PathArray names => names
               | PathString s => split FilePath.is_slash s
               end in
  mkPath_loop names "" d.

(** The directory that [mkPath] looks at in turn [k]: the first [k + 1]
    names, each followed by a separator. *)
Definition made_at (names : list string) (k : nat) : string :=
  join "/" (take (S k) names) +:+ "/".

(** Making the directory [path] unless it exists. *)
Definition ensure (path : string) (d : D) : completion D :=
  if exists_ path d then Normal d else w_mkdirSync G d path.

Fixpoint ensure_all (paths : list string) (d : D) : completion D :=
  match paths with
  | [] => Normal d
  | path :: rest =>
      match ensure path d with
      | Normal d' => ensure_all rest d'
      | Throw e => Throw e
      end
  end.

(** What is assumed of [fs.mkdirSync]: where it returns, the directory
    exists, and so does all that existed. *)
Definition mkdir_makes : Prop :=
  forall d path d',
    w_mkdirSync G d path = Normal d' ->
    exists_ path d' = true /\
    forall q, exists_ q d = true -> exists_ q d' = true.

End MkPath.

(** A file system that is the list of its directories, in which a
    directory can be made but under the name of the empty string. *)
Definition dirs_fs : wfs (list string) := {|
  w_statSync d path :=
    if bool_decide (path ∈ d) then Normal {| isDirectory := true |}
    else Throw (FsError ENOENT);
  w_mkdirSync d path :=
    if truthy path then Normal (path :: d) else Throw (FsError ENOENT)
|}.

(** *** [IO.setEncoding] *)


End IO.

(** ** [FileWriter] *)

Module FileWriter.
Import JS.

(** What a value counts for in a condition. *)
Definition truthy_value (v : value) : bool :=
  match v with
  | VUndefined | VNull => false
  | VBool b => b
  | VNumber z => negb (z =? 0)%Z
  | VString s => truthy s
  end.

(** The stream that [fs.createWriteStream] returns: the file and the flags
    that it was made for, and the chunks written to it so far. *)
Record stream := {
  target : string;
  flags : string;
  written : list string
}.

Record t := { writeStream : option stream }.

(** [new FileWriter()] *)
Definition new : t := {| writeStream := None |}.

(** [open(path, append)]; [append == null] holds of [null] and of
    [undefined] only. *)
Definition open (path : string) (append : value) (this : t) : t :=
  let append := match append with
                | VUndefined | VNull => VBool true
                | v => v
                end in
  {| writeStream :=
       Some {| target := path;
               flags := if truthy_value append then "a" else "w";
               written := [] |} |}.

(** [write(str)]; [undefined] has no [write]. *)
Definition write (str : string) (this : t) : completion t :=
  match writeStream this with
  | None => Throw TypeError
  | Some st =>
      Normal {| writeStream :=
                  Some {| target := target st; flags := flags st;
                          written := push (written st) str |} |}
  end.

(** [append(str, from, to)]; [from] and [to] are [None] when left out, and
    a number 0 counts as left out. *)
Definition append (str : string) (from to : option Z) (this : t) : completion t :=
  let from := match from with
              | Some z => if (z =? 0)%Z then 0%Z else z
              | None => 0%Z
              end in
  let to := match to with
            | Some z => if (z =? 0)%Z then Z.of_nat (String.length str) else z
            | None => Z.of_nat (String.length str)
            end in
  let str := substr str from (Some to) in
  write str this.

Definition getEncoding (this : t) : string := "utf8".

End FileWriter.

(** ** [LOG] *)

Module LOG.
Import JS.

(** The error that [warn] may be given: its file name, and its line
    number as JavaScript prints it. *)
Record error := {
  fileName : string;
  lineNumber : string
}.

(** [LOG.warnings], [LOG.verbose], what was written to [LOG.out] when it
    is set, and the lines printed on the console. *)
Record t := {
  warnings : list string;
  verbose : bool;
  out : option (list string);
  console : list string
}.

Definition newline : string := String (ascii_of_nat 10) EmptyString.

(** [LOG.out.write(msg + "\n")] when [LOG.out] is set. *)
Definition emit (msg : string) (otherwise : t -> t) (L : t) : t :=
  match out L with
  | Some o =>
      {| warnings := warnings L; verbose := verbose L;
         out := Some (push o (msg +:+ newline)); console := console L |}
  | None => otherwise L
  end.

(** [print(msg)] *)
Definition print (msg : string) (L : t) : t :=
  {| warnings := warnings L; verbose := verbose L;
     out := out L; console := push (console L) msg |}.

(** [LOG.warn(msg, e)]; [q] is [JSDOC.opt.q]. *)
Definition warn (q : bool) (msg : string) (e : option error) (L : t) : t :=
  if q then L
  else
    let msg := match e with
               | Some e => fileName e +:+ ", line " +:+ lineNumber e +:+ ": " +:+ msg
               | None => msg
               end in
    let msg := ">> WARNING: " +:+ msg in
    let L := {| warnings := push (warnings L) msg; verbose := verbose L;
                out := out L; console := console L |} in
    emit msg (print msg) L.

(** [LOG.inform(msg)] *)
Definition inform (q : bool) (msg : string) (L : t) : t :=
  if q then L
  else
    let msg := " > " +:+ msg in
    emit msg (fun L => if verbose L then print msg L else L) L.

(** A call of one of the two, and a sequence of calls. *)
Inductive call :=
  | Warn (msg : string) (e : option error)
  | Inform (msg : string).

Definition run_call (q : bool) (L : t) (c : call) : t :=
  match c with
  | Warn msg e => warn q msg e L
  | Inform msg => inform q msg L
  end.

Definition run (q : bool) (calls : list call) (L : t) : t :=
  fold_left (run_call q) calls L.

(** The text that a call records among the warnings, if it does. *)
Definition warning_text (c : call) : list string :=
  match c with
  | Warn msg (Some e) =>
      [">> WARNING: " +:+ fileName e +:+ ", line " +:+ lineNumber e +:+ ": " +:+ msg]
  | Warn msg None => [">> WARNING: " +:+ msg]
  | Inform _ => []
  end.

(** The line that a call writes to [LOG.out]. *)
Definition out_text (c : call) : string :=
  match c with
  | Warn _ _ => default "" (head (warning_text c)) +:+ newline
  | Inform msg => " > " +:+ msg +:+ newline
  end.

End LOG.

(** ** Vocabulary of the specification *)

Module Spec.
Import JS.

(** A segment list without the markers [.] and [..]. *)
Definition resolved (segments : list string) : Prop :=
  Forall (fun seg => seg <> "." /\ seg <> "..") segments.

(** The states of a [FilePath] that construction, [toDir] and [upDir]
    lead to. *)
Inductive reachable : FilePath.t -> Prop :=
  | reachable_new absPath separator p :
      FilePath.new (VString absPath) separator = Normal p -> reachable p
  | reachable_toDir p : reachable p -> reachable (FilePath.toDir p)
  | reachable_upDir p : reachable p -> reachable (FilePath.upDir p).

(** [root + segments.join(separator) + (separator if segments is not empty)
    + fileName], in the words of the specification. *)
Definition toString_spec (p : FilePath.t) : string :=
  FilePath.root p
  +:+ String.concat (FilePath.slash p) (FilePath.path p)
  +:+ match FilePath.path p with
      | [] => ""
      | _ :: _ => FilePath.slash p
      end
  +:+ FilePath.file p.

(** Removing the last entry of the segment list; nothing to remove from the
    empty list. *)
Definition remove_last_segment (p : FilePath.t) : FilePath.t :=
  match FilePath.path p with
  | [] => p
  | _ :: _ => FilePath.set_path (removelast (FilePath.path p)) p
  end.

(** The character [c] occurs in [s]. *)
Fixpoint occurs (c : ascii) (s : string) : bool :=
  match s with
  | EmptyString => false
  | String d rest => Ascii.eqb c d || occurs c rest
  end.

(** The last token of [absPath] is kept as the file name, and [toString]
    ends with it. *)
Definition trailing_token_kept (absPath : string) (separator : option string) : Prop :=
  forall tok p,
    last (split FilePath.is_slash absPath) = Some tok ->
    tok = ".." \/ tok = "." ->
    FilePath.new (VString absPath) separator = Normal p ->
    FilePath.file p = tok /\
    FilePath.toString p =
      FilePath.root p
      +:+ join (FilePath.slash p) (FilePath.path p)
      +:+ (if (0 <? length (FilePath.path p))%nat then FilePath.slash p else "")
      +:+ tok.

(** [IO.ls] fails: it throws, and so returns nothing. *)
Definition fails (F : IO.fs) (dir : string) (recurse : option Z) : Prop :=
  exists e, IO.ls F dir recurse = IO.Raise e.

(** The index that follows the last separator of [s]; [0] when it has
    none. *)
Fixpoint name_start (s : string) : nat :=
  match s with
  | EmptyString => 0
  | String d rest =>
      match name_start rest with
      | S k => S (S k)
      | O => if FilePath.is_slash d then 1 else 0
      end
  end.


End Spec.

(** * Properties *)

Import JS.

(** ** Strings and arrays *)

Lemma append_nil_l (b : string) : "" +:+ b = b.
Proof. reflexivity. Qed.

Lemma append_cons (x : ascii) (a b : string) : String x a +:+ b = String x (a +:+ b).
Proof. reflexivity. Qed.

Lemma append_assoc (a b c : string) : (a +:+ b) +:+ c = a +:+ (b +:+ c).
Proof.
  induction a as [|x a IH]; [reflexivity|].
  rewrite !append_cons. now rewrite IH.
Qed.

Lemma append_empty_r (a : string) : a +:+ "" = a.
Proof.
  induction a as [|x a IH]; [reflexivity|].
  rewrite append_cons. now rewrite IH.
Qed.

Lemma split_not_nil sep s : split sep s <> [].
Proof.
  destruct s as [|c s]; simpl; [discriminate|].
  destruct (sep c); [discriminate|].
  destruct (split sep s); discriminate.
Qed.

Lemma split_no_separator sep s :
  (forall c, Spec.occurs c s = true -> sep c = false) -> split sep s = [s].
Proof.
  induction s as [|d s IH]; intros H; simpl; [reflexivity|].
  rewrite (H d) by (simpl; now rewrite Ascii.eqb_refl).
  rewrite IH; [reflexivity|].
  intros c Hc. apply H. simpl. rewrite Hc. apply orb_true_r.
Qed.

Lemma split_at_separator sep a c b :
  sep c = true ->
  split sep (a +:+ String c b) = split sep a ++ split sep b.
Proof.
  intros Hc. induction a as [|d a IH].
  - rewrite append_nil_l. simpl. now rewrite Hc.
  - rewrite append_cons. simpl. destruct (sep d); [now rewrite IH|].
    rewrite IH. pose proof (split_not_nil sep a) as Hne.
    destruct (split sep a); [congruence | reflexivity].
Qed.

Lemma join_fold_count sep l k R :
  fst (fold_left (join_step sep) l (k, R)) = (k + length l)%nat.
Proof.
  revert k R. induction l as [|x l IH]; intros k R; simpl; [lia|].
  rewrite IH. lia.
Qed.

Lemma join_snoc sep l x :
  join sep (l ++ [x]) =
  (if (0 <? length l)%nat then join sep l +:+ sep else join sep l) +:+ x.
Proof.
  unfold join. rewrite fold_left_app. simpl.
  pose proof (join_fold_count sep l 0 "") as Hk.
  destruct (fold_left (join_step sep) l (0%nat, "")) as [k R].
  simpl in *. subst k. reflexivity.
Qed.

Lemma join_fold_concat sep l k R :
  (0 < k)%nat ->
  snd (fold_left (join_step sep) l (k, R)) =
  R +:+ String.concat "" (map (fun x => sep +:+ x) l).
Proof.
  revert k R. induction l as [|x l IH]; intros k R Hk; simpl.
  - now rewrite append_empty_r.
  - destruct (0 <? k)%nat eqn:E; [|apply Nat.ltb_ge in E; lia].
    rewrite IH by lia. rewrite !append_assoc.
    destruct l; simpl; [now rewrite append_empty_r | reflexivity].
Qed.

Lemma concat_cons sep x l :
  String.concat sep (x :: l) = x +:+ String.concat "" (map (fun y => sep +:+ y) l).
Proof.
  revert x. induction l as [|y l IH]; intros x.
  - simpl. now rewrite append_empty_r.
  - change (String.concat sep (x :: y :: l))
      with (x +:+ sep +:+ String.concat sep (y :: l)).
    rewrite (IH y). destruct l as [|z l].
    + simpl. now rewrite !append_empty_r.
    + change (map (fun y0 => sep +:+ y0) (y :: z :: l))
        with ((sep +:+ y) :: map (fun y0 => sep +:+ y0) (z :: l)).
      change (String.concat "" ((sep +:+ y) :: map (fun y0 => sep +:+ y0) (z :: l)))
        with ((sep +:+ y) +:+ "" +:+ String.concat "" (map (fun y0 => sep +:+ y0) (z :: l))).
      rewrite append_nil_l. now rewrite append_assoc.
Qed.

Lemma join_concat sep l : join sep l = String.concat sep l.
Proof.
  destruct l as [|x l]; [reflexivity|].
  unfold join. simpl fold_left.
  rewrite join_fold_concat by lia.
  now rewrite concat_cons.
Qed.

(** ** The path model *)

Lemma Forall_pop {A} (P : A -> Prop) (a : list A) : Forall P a -> Forall P (pop a).
Proof.
  unfold pop. rewrite removelast_firstn_len. apply Forall_take.
Qed.

Lemma resolve_step_resolved acc item :
  Spec.resolved acc -> Spec.resolved (FilePath.resolve_step acc item).
Proof.
  unfold Spec.resolved, FilePath.resolve_step. intros H.
  destruct (String.eqb_spec item "..") as [->|Hdd]; [now apply Forall_pop|].
  destruct (String.eqb_spec item ".") as [->|Hd]; simpl; [assumption|].
  unfold push. apply Forall_app. split; [assumption|]. now repeat constructor.
Qed.

Lemma resolve_fold_resolved items acc :
  Spec.resolved acc -> Spec.resolved (fold_left FilePath.resolve_step items acc).
Proof.
  revert acc. induction items as [|item items IH]; intros acc H; simpl; [assumption|].
  apply IH. now apply resolve_step_resolved.
Qed.

(** The fields that the constructor leaves, from the tokens of the input. *)
Lemma new_fields absPath separator p :
  FilePath.new (VString absPath) separator = Normal p ->
  exists first rest,
    split FilePath.is_slash absPath = first :: rest /\
    FilePath.slash p = match separator with
                       | Some s => if truthy s then s else "/"
                       | None => "/"
                       end /\
    FilePath.root p = first +:+ FilePath.slash p /\
    FilePath.file p = default "" (last rest) /\
    FilePath.path p = fold_left FilePath.resolve_step (removelast rest) [].
Proof.
  unfold FilePath.new. simpl.
  destruct (split FilePath.is_slash absPath) as [|first rest] eqn:Hs.
  { now destruct (split_not_nil _ _ Hs). }
  intros H. exists first, rest. split; [reflexivity|].
  revert H. simpl. unfold popped, pop.
  destruct (last rest) as [l|] eqn:Hl; simpl.
  - destruct (0 <? length (removelast rest))%nat eqn:Hn; simpl.
    + intros [= <-]. simpl. unfold FilePath.resolvePath. simpl. auto.
    + apply Nat.ltb_ge in Hn.
      assert (removelast rest = []) as -> by (apply length_zero_iff_nil; lia).
      intros [= <-]. simpl. auto.
  - apply last_None in Hl. subst rest. simpl.
    intros [= <-]. simpl. auto.
Qed.

Lemma new_total absPath separator :
  exists p, FilePath.new (VString absPath) separator = Normal p.
Proof.
  unfold FilePath.new. simpl.
  destruct (shift _) as [[first|] rest];
    destruct (popped _); eexists; reflexivity.
Qed.

Lemma toDir_path p : FilePath.path (FilePath.toDir p) = FilePath.path p.
Proof. unfold FilePath.toDir. now destruct (truthy _). Qed.

Lemma toDir_file p : FilePath.file (FilePath.toDir p) = "".
Proof.
  unfold FilePath.toDir. destruct (FilePath.file p) eqn:E; simpl; [exact E | reflexivity].
Qed.

Lemma upDir_path p : FilePath.path (FilePath.upDir p) = pop (FilePath.path p).
Proof.
  unfold FilePath.upDir. rewrite toDir_path.
  destruct (FilePath.path p) as [|x l] eqn:E; simpl.
  - now rewrite toDir_path.
  - reflexivity.
Qed.

Lemma new_resolved absPath separator p :
  FilePath.new (VString absPath) separator = Normal p ->
  Spec.resolved (FilePath.path p).
Proof.
  intros H.
  destruct (new_fields _ _ _ H) as (first & rest & _ & _ & _ & _ & ->).
  apply resolve_fold_resolved. constructor.
Qed.

(** C2: after construction from any string the segment list holds neither
    [.] nor [..]; a [..] met while no accepted segment remains changes
    nothing, whether it is met first or after the accepted segments were
    used up; and [toDir] and [upDir] keep the segment list free of the
    markers, so that every reachable state is. *)
Theorem segments_resolved :
  (forall absPath separator p,
     FilePath.new (VString absPath) separator = Normal p ->
     Spec.resolved (FilePath.path p)) /\
  (FilePath.resolve_step [] ".." = [] /\
   forall before after,
     fold_left FilePath.resolve_step before [] = [] ->
     fold_left FilePath.resolve_step (before ++ ".." :: after) [] =
     fold_left FilePath.resolve_step after []) /\
  (forall p,
     Spec.resolved (FilePath.path p) ->
     Spec.resolved (FilePath.path (FilePath.toDir p)) /\
     Spec.resolved (FilePath.path (FilePath.upDir p))) /\
  (forall p, Spec.reachable p -> Spec.resolved (FilePath.path p)).
Proof.
  pose proof new_resolved as Hnew.
  assert (Hkeep : forall p,
             Spec.resolved (FilePath.path p) ->
             Spec.resolved (FilePath.path (FilePath.toDir p)) /\
             Spec.resolved (FilePath.path (FilePath.upDir p))).
  { intros p H. rewrite toDir_path, upDir_path. split; [assumption|].
    now apply Forall_pop. }
  repeat split.
  - exact Hnew.
  - intros before after H. rewrite fold_left_app, H. reflexivity.
  - now apply Hkeep.
  - now apply Hkeep.
  - intros p H. induction H as [absPath separator p H|p _ IH|p _ IH].
    + now apply (Hnew absPath separator).
    + now apply Hkeep.
    + now apply Hkeep.
Qed.

Lemma segments_resolved_witness :
  Spec.resolved
    (FilePath.path
       (FilePath.upDir
          (FilePath.mk "/" "/" (fold_left FilePath.resolve_step [".."; "a"; "."; "b"] []) "f"))).
Proof.
  apply (proj2 (proj2 (proj2 segments_resolved))).
  apply Spec.reachable_upDir.
  apply (Spec.reachable_new "/../a/./b/f" None).
  reflexivity.
Defined.

(** C3: the two paths of the specification, constructed with the default
    separator and printed. *)
Theorem toString_collapses_markers :
  (p ← FilePath.new (VString "/a/b/../c/file.txt") None;
   mret (FilePath.toString p)) = Normal "/a/c/file.txt" /\
  (p ← FilePath.new (VString "/a/./b/file.txt") None;
   mret (FilePath.toString p)) = Normal "/a/b/file.txt".
Proof. split; reflexivity. Qed.

Lemma toString_is_spec p : FilePath.toString p = Spec.toString_spec p.
Proof.
  unfold FilePath.toString, Spec.toString_spec.
  rewrite join_concat. now destruct (FilePath.path p).
Qed.

(** C4: in every state that construction, [toDir] and [upDir] lead to,
    [toString] is the root, the segments joined by the separator, the
    separator when there is a segment, and the file name.  It reads the
    object and leaves the store as it was, and it prints the segments as
    they are, in any state: markers put there by other means are not
    resolved again. *)
Theorem toString_reconstructs :
  (forall p, Spec.reachable p -> FilePath.toString p = Spec.toString_spec p) /\
  (forall (r : nat) (h : gmap nat FilePath.t) o,
     h !! r = Some o -> Obj.toString r h = Some (FilePath.toString o, h)) /\
  (forall p, FilePath.toString p = Spec.toString_spec p) /\
  FilePath.toString (FilePath.mk "/" "/" ["a"; ".."; "."; "b"] "f") = "/a/.././b/f".
Proof.
  repeat split.
  - intros p _. apply toString_is_spec.
  - intros r h o H. unfold Obj.toString. now rewrite H.
  - apply toString_is_spec.
Qed.

Lemma toString_reconstructs_witness :
  FilePath.toString (FilePath.toDir (FilePath.mk "/" "/" ["a"; "c"] "file.txt")) = "/a/c/".
Proof.
  rewrite (proj1 toString_reconstructs).
  - reflexivity.
  - apply Spec.reachable_toDir.
    apply (Spec.reachable_new "/a/b/../c/file.txt" None). reflexivity.
Defined.

Lemma upDir_is_remove_last p :
  FilePath.upDir p = Spec.remove_last_segment (FilePath.toDir p).
Proof.
  unfold FilePath.upDir, Spec.remove_last_segment.
  now destruct (FilePath.path (FilePath.toDir p)).
Qed.

(** C5: [upDir] is [toDir] followed by the removal of the last segment,
    which changes nothing when there is none; called on an object of the
    store it returns the reference it was called on; and two [upDir] on
    the path [/a/b/c/file.txt] leave [/a/]. *)
Theorem upDir_is_toDir_then_pop :
  (forall p, FilePath.upDir p = Spec.remove_last_segment (FilePath.toDir p)) /\
  (forall p, FilePath.path p = [] ->
     FilePath.path (FilePath.upDir p) = []) /\
  (forall (r : nat) (h : gmap nat FilePath.t) o,
     h !! r = Some o ->
     Obj.upDir r h =
       Some (r, <[r := Spec.remove_last_segment (FilePath.toDir o)]> h) /\
     Obj.upDir r h =
       ('(r1, h1) ← Obj.toDir r h;
        o1 ← h1 !! r1;
        Some (r1, <[r1 := Spec.remove_last_segment o1]> h1))) /\
  (p ← FilePath.new (VString "/a/b/c/file.txt") None;
   mret (FilePath.toString (FilePath.upDir (FilePath.upDir p)))) = Normal "/a/" /\
  match Obj.new (VString "/a/b/c/file.txt") None ∅ with
  | Normal (r, h) =>
      '(r1, h1) ← Obj.upDir r h;
      '(r2, h2) ← Obj.upDir r1 h1;
      '(s, _) ← Obj.toString r2 h2;
      Some (r1, r2, s)
  | Throw _ => None
  end = Some (fresh (dom (∅ : gmap nat FilePath.t)),
              fresh (dom (∅ : gmap nat FilePath.t)), "/a/").
Proof.
  split; [exact upDir_is_remove_last|].
  split; [intros p H; rewrite upDir_path, H; reflexivity|].
  split; [|split; [reflexivity | vm_compute; reflexivity]].
  intros r h o H. unfold Obj.upDir, Obj.toDir. rewrite H. simpl.
  rewrite upDir_is_remove_last. split; [reflexivity|].
  rewrite lookup_insert_eq. simpl. now rewrite insert_insert_eq.
Qed.

Lemma upDir_is_toDir_then_pop_witness :
  Obj.upDir 7 {[ 7 := FilePath.mk "/" "/" ["a"; "b"] "f" ]} =
  Some (7, <[7 := FilePath.mk "/" "/" ["a"] ""]> {[ 7 := FilePath.mk "/" "/" ["a"; "b"] "f" ]}).
Proof.
  apply (proj1 (proj2 (proj2 upDir_is_toDir_then_pop)) 7 _ (FilePath.mk "/" "/" ["a"; "b"] "f")).
  apply lookup_singleton_eq.
Defined.

(** Degenerate inputs: the empty string, a string without separator, mixed
    separators with a separator of the caller's. *)
Example new_degenerate :
  FilePath.new (VString "") None = Normal (FilePath.mk "/" "/" [] "") /\
  FilePath.new (VString "file.txt") None = Normal (FilePath.mk "/" "file.txt/" [] "") /\
  FilePath.new (VString "C:\a/..\..\b/f") (Some "\") =
    Normal (FilePath.mk "\" "C:\" ["b"] "f") /\
  FilePath.new (VString "//") (Some "") = Normal (FilePath.mk "/" "/" [""] "").
Proof. repeat split. Qed.

(** The constructor does throw on what is not a string. *)
Example new_undefined_throws separator :
  FilePath.new VUndefined separator = Throw TypeError.
Proof. reflexivity. Qed.

(** C8: construction from any string, empty or not, whatever its
    separators, returns a path whose segments are resolved and whose root
    ends with the separator; and on any object of the store [toDir],
    [upDir] and [toString] return.  At the level of the fields the three
    are total functions. *)
Theorem path_model_never_throws :
  (forall absPath separator,
     exists p, FilePath.new (VString absPath) separator = Normal p /\
               Spec.resolved (FilePath.path p) /\
               (exists first, FilePath.root p = first +:+ FilePath.slash p) /\
               forall h : gmap nat FilePath.t,
                 Obj.new (VString absPath) separator h =
                   Normal (fresh (dom h), <[fresh (dom h) := p]> h)) /\
  (forall (r : nat) (h : gmap nat FilePath.t) o,
     h !! r = Some o ->
     Obj.toDir r h = Some (r, <[r := FilePath.toDir o]> h) /\
     Obj.upDir r h = Some (r, <[r := FilePath.upDir o]> h) /\
     Obj.toString r h = Some (FilePath.toString o, h)).
Proof.
  split.
  - intros absPath separator.
    destruct (new_total absPath separator) as [p Hp]. exists p.
    split; [exact Hp|]. split; [exact (new_resolved _ _ _ Hp)|].
    split.
    + destruct (new_fields _ _ _ Hp) as (first & rest & _ & _ & Hr & _).
      now exists first.
    + intros h. unfold Obj.new. now rewrite Hp.
  - intros r h o H. unfold Obj.toDir, Obj.upDir, Obj.toString.
    rewrite H. repeat split.
Qed.

Lemma path_model_never_throws_witness :
  Obj.toDir 3 {[ 3 := FilePath.mk "/" "/" ["a"] "f" ]} =
    Some (3, <[3 := FilePath.mk "/" "/" ["a"] ""]> {[ 3 := FilePath.mk "/" "/" ["a"] "f" ]}) /\
  Obj.upDir 3 {[ 3 := FilePath.mk "/" "/" ["a"] "f" ]} =
    Some (3, <[3 := FilePath.mk "/" "/" [] ""]> {[ 3 := FilePath.mk "/" "/" ["a"] "f" ]}) /\
  Obj.toString 3 {[ 3 := FilePath.mk "/" "/" ["a"] "f" ]} =
    Some ("/a/f", {[ 3 := FilePath.mk "/" "/" ["a"] "f" ]}).
Proof.
  apply (proj2 path_model_never_throws 3 _ (FilePath.mk "/" "/" ["a"] "f")).
  apply lookup_singleton_eq.
Defined.

Lemma last_split_after_dot name ext :
  Spec.occurs "." ext = false ->
  last (split (Ascii.eqb ".") (name +:+ "." +:+ ext)) = Some ext.
Proof.
  intros H.
  change ("." +:+ ext) with (String "." ext).
  rewrite split_at_separator by reflexivity.
  rewrite (split_no_separator _ ext).
  - apply last_snoc.
  - intros c Hc. destruct (Ascii.eqb_spec "." c) as [<-|]; congruence.
Qed.

(** C9: [fileExtension] returns, in lower case, what follows the last
    ['.'] of the name, and the whole name in lower case when it has no
    ['.']; so [gz] for [archive.tar.gz] and [readme] for [README].  The
    lower case is that of [toLowerCase], which lowers the capital letters
    beyond the ASCII ones too: [X.] followed by the code units 196 and 66
    has the extension of the code units 228 and 98.  What is lowered is
    the text after the last ['.'] as it stands. *)
Theorem fileExtension_after_last_dot :
  (forall name ext,
     Spec.occurs "." ext = false ->
     FilePath.fileExtension (name +:+ "." +:+ ext) = Normal (toLowerCase ext)) /\
  (forall name,
     Spec.occurs "." name = false ->
     FilePath.fileExtension name = Normal (toLowerCase name)) /\
  FilePath.fileExtension "archive.tar.gz" = Normal "gz" /\
  FilePath.fileExtension "README" = Normal "readme" /\
  FilePath.fileExtension
    (String "X" (String "." (String (ascii_of_nat 196) (String "B" EmptyString)))) =
  Normal (String (ascii_of_nat 228) (String "b" EmptyString)) /\
  (forall name ext,
     Spec.occurs "." ext = false ->
     popped (split (Ascii.eqb ".") (name +:+ "." +:+ ext)) = Some ext).
Proof.
  split; [|split; [|repeat split; exact last_split_after_dot]].
  - intros name ext H. unfold FilePath.fileExtension, popped.
    now rewrite last_split_after_dot.
  - intros name H. unfold FilePath.fileExtension, popped.
    rewrite split_no_separator; [reflexivity|].
    intros c Hc. destruct (Ascii.eqb_spec "." c) as [<-|]; congruence.
Qed.

Lemma fileExtension_after_last_dot_witness :
  FilePath.fileExtension ("Archive.Tar" +:+ "." +:+ "GZ") = Normal "gz" /\
  FilePath.fileExtension "Makefile" = Normal "makefile".
Proof.
  split.
  - apply (proj1 fileExtension_after_last_dot "Archive.Tar" "GZ"). reflexivity.
  - apply (proj1 (proj2 fileExtension_after_last_dot) "Makefile"). reflexivity.
Defined.

(** C10, as stated, fails on an input without separator: the only token of
    [..] becomes the root, the file name stays empty and the path prints
    as [../]. *)
Lemma trailing_marker_alone_is_root :
  last (split FilePath.is_slash "..") = Some ".." /\
  FilePath.new (VString "..") None = Normal (FilePath.mk "/" "../" [] "") /\
  FilePath.toString (FilePath.mk "/" "../" [] "") = "../" /\
  ~ Spec.trailing_token_kept ".." None.
Proof.
  repeat split. intros H.
  destruct (H ".." (FilePath.mk "/" "../" [] "")) as [Hf _];
    [reflexivity | now left | reflexivity | discriminate Hf].
Qed.

(** C10, amended: when the input has a separator, its last token becomes
    the file name before the resolution runs, which sees the middle tokens
    only; a last token [..] or [.] is printed as it is, as for [/a/b/..]. *)
Theorem trailing_marker_is_file_name :
  (forall absPath separator,
     (2 <= length (split FilePath.is_slash absPath))%nat ->
     Spec.trailing_token_kept absPath separator) /\
  (forall absPath separator p,
     FilePath.new (VString absPath) separator = Normal p ->
     FilePath.path p =
       fold_left FilePath.resolve_step
                 (removelast (tail (split FilePath.is_slash absPath))) []) /\
  (p ← FilePath.new (VString "/a/b/..") None;
   mret (FilePath.toString p)) = Normal "/a/b/..".
Proof.
  split; [|split; [|reflexivity]].
  - intros absPath separator Hlen tok p Hlast Htok Hnew.
    destruct (new_fields _ _ _ Hnew) as (first & rest & Hs & _ & _ & Hf & _).
    rewrite Hs in Hlen, Hlast.
    destruct rest as [|second rest]; [simpl in Hlen; lia|].
    rewrite last_cons_cons in Hlast. rewrite Hlast in Hf. simpl in Hf.
    split; [exact Hf|]. unfold FilePath.toString. now rewrite Hf.
  - intros absPath separator p Hnew.
    destruct (new_fields _ _ _ Hnew) as (first & rest & Hs & _ & _ & _ & Hp).
    now rewrite Hs.
Qed.

Lemma trailing_marker_is_file_name_witness :
  Spec.trailing_token_kept "/a/./b\.." (Some "\").
Proof.
  apply (proj1 trailing_marker_is_file_name).
  vm_compute. lia.
Defined.

(** ** The directory lister *)

Section LsProperties.
Context (F : IO.fs) (dir : string) (recurse : Z).

Local Abbreviation entered := (IO.entered F dir recurse).
Local Abbreviation failure := (IO.failure F dir recurse).
Local Abbreviation listed := (IO.listed F dir recurse).
Local Abbreviation loop_outcome := (IO.loop_outcome F dir recurse).
Local Abbreviation call_outcome := (IO.call_outcome F dir recurse).
Local Abbreviation self n :=
  (fun d r a => IO.ls_fuel F n d (Some r) (IO._allFiles a) (Some (IO._path a))).

Lemma entered_not_empty path : entered path -> (0 < length path)%nat.
Proof.
  destruct 1; [simpl; lia|]. rewrite length_app. simpl. lia.
Qed.

Lemma join_push path file :
  (0 < length path)%nat ->
  join "/" (push path file) = join "/" path +:+ "/" +:+ file.
Proof.
  intros H. unfold push. rewrite join_snoc.
  destruct (0 <? length path)%nat eqn:E; [|apply Nat.ltb_ge in E; lia].
  apply append_assoc.
Qed.

Lemma entered_is_directory path :
  entered path ->
  IO.statSync F (join "/" path) = Normal {| IO.isDirectory := true |}.
Proof.
  intros H. destruct H as [H|path files file Hp _ _ _ Hs _]; [exact H|].
  change (path ++ [file]) with (push path file).
  rewrite join_push by now apply entered_not_empty. exact Hs.
Qed.

Lemma entered_start_is_directory path :
  entered path ->
  IO.statSync F dir = Normal {| IO.isDirectory := true |}.
Proof. induction 1; assumption. Qed.

(** The three ways out of a call on a path that is not empty. *)
Lemma ls_fuel_stat_fails n d r all path e :
  (0 < length path)%nat ->
  IO.statSync F d = Throw e ->
  IO.ls_fuel F (S n) d (Some r) all (Some path) = IO.Raise e.
Proof.
  intros Hp Hs. simpl. destruct path; [simpl in Hp; lia|]. simpl.
  now rewrite Hs.
Qed.

Lemma ls_fuel_plain_file n d r all path :
  (0 < length path)%nat ->
  IO.statSync F d = Normal {| IO.isDirectory := false |} ->
  IO.ls_fuel F (S n) d (Some r) all (Some path) =
  IO.Ok ([d], {| IO._allFiles := all; IO._path := path |}).
Proof.
  intros Hp Hs. simpl. destruct path; [simpl in Hp; lia|]. simpl.
  now rewrite Hs.
Qed.

Lemma ls_fuel_directory n d r all path :
  (0 < length path)%nat ->
  IO.statSync F d = Normal {| IO.isDirectory := true |} ->
  IO.ls_fuel F (S n) d (Some r) all (Some path) =
  (files ← IO.lift (IO.readdirSync F d);
   a ← IO.for_files (IO.ls_entry F (self n) r) files
         {| IO._allFiles := all; IO._path := path |};
   mret (IO._allFiles a, a)).
Proof.
  intros Hp Hs. simpl. destruct path; [simpl in Hp; lia|]. simpl.
  now rewrite Hs.
Qed.

Lemma loop_outcome_start path a : IO._path a = path -> loop_outcome path a (IO.Ok a).
Proof.
  intros H. split; [exact H|]. exists []. split; [now rewrite app_nil_r | constructor].
Qed.

Lemma loop_outcome_then path a a1 r :
  loop_outcome path a (IO.Ok a1) -> loop_outcome path a1 r -> loop_outcome path a r.
Proof.
  intros [_ (new1 & H1 & L1)] H. destruct r as [a2|e|]; simpl in *; [|exact H|exact H].
  destruct H as [Hp (new2 & H2 & L2)]. split; [exact Hp|].
  exists (new1 ++ new2). split.
  - now rewrite H2, H1, app_assoc.
  - now apply Forall_app.
Qed.

Section Level.
Context (n : nat).
Hypothesis calls :
  forall path all,
    entered path ->
    (Z.to_nat (recurse - Z.of_nat (length path)) < n)%nat ->
    call_outcome path {| IO._allFiles := all; IO._path := path |}
      (IO.ls_fuel F n (join "/" path) (Some recurse) all (Some path)).

Lemma ls_entry_outcome path files file a :
  entered path ->
  IO.readdirSync F (join "/" path) = Normal files ->
  In file files ->
  (Z.to_nat (recurse - Z.of_nat (length path)) < S n)%nat ->
  IO._path a = path ->
  loop_outcome path a (IO.ls_entry F (self n) recurse a file).
Proof.
  intros He Hr Hin Hfuel Hp. destruct a as [all p]. simpl in Hp. subst p.
  unfold IO.ls_entry. simpl IO._path. simpl IO._allFiles.
  destruct (IO.is_dot_file file) eqn:Hdot; [now apply loop_outcome_start|].
  destruct (IO.statSync F (join "/" path +:+ "/" +:+ file)) as [[[|]]|e] eqn:Hs; simpl.
  - destruct (Z.of_nat (length (push path file)) - 1 <? recurse)%Z eqn:Hd; simpl.
    + apply Z.ltb_lt in Hd. unfold push in Hd. rewrite length_app in Hd. simpl in Hd.
      assert (Hsub : entered (path ++ [file])).
      { apply (IO.entered_sub F dir recurse path files file); auto. lia. }
      pose proof (calls (path ++ [file]) all Hsub) as Hc.
      unfold push.
      destruct (IO.ls_fuel F n (join "/" (path ++ [file])) (Some recurse) all
                  (Some (path ++ [file]))) as [[ret a']|e|]; simpl in *.
      * destruct Hc as [_ [Hp' Hnew]]; [rewrite length_app; simpl; lia|].
        split; [|exact Hnew]. rewrite Hp'. apply removelast_last.
      * apply Hc. rewrite length_app. simpl. lia.
      * apply Hc. rewrite length_app. simpl. lia.
    + split; [apply removelast_last|].
      exists []. split; [now rewrite app_nil_r | constructor].
  - split; [reflexivity|].
    eexists [_]. split; [reflexivity|]. constructor; [|constructor].
    exists path, files, file. auto 10.
  - right. exists path, files, file. auto 10.
Qed.

Lemma for_files_outcome path files :
  entered path ->
  IO.readdirSync F (join "/" path) = Normal files ->
  (Z.to_nat (recurse - Z.of_nat (length path)) < S n)%nat ->
  forall rest a,
    incl rest files ->
    IO._path a = path ->
    loop_outcome path a (IO.for_files (IO.ls_entry F (self n) recurse) rest a).
Proof.
  intros He Hr Hfuel rest. induction rest as [|file rest IH]; intros a Hin Hp.
  - now apply loop_outcome_start.
  - simpl.
    pose proof (ls_entry_outcome path files file a He Hr
                  (Hin file (or_introl eq_refl)) Hfuel Hp) as H1.
    destruct (IO.ls_entry F (self n) recurse a file) as [a1|e|] eqn:E; simpl;
      [|exact H1|exact H1].
    apply (loop_outcome_then path a a1); [exact H1|].
    apply IH; [|exact (proj1 H1)].
    intros x Hx. apply Hin. now right.
Qed.

End Level.

(** A call on an entered directory, with the fuel that the remaining depth
    asks for, returns the shared array, to which it has added listed paths
    only, or throws for a failure; it does not run out of fuel. *)
Lemma ls_fuel_outcome n :
  forall path all,
    entered path ->
    (Z.to_nat (recurse - Z.of_nat (length path)) < n)%nat ->
    call_outcome path {| IO._allFiles := all; IO._path := path |}
      (IO.ls_fuel F n (join "/" path) (Some recurse) all (Some path)).
Proof.
  induction n as [|n IH]; intros path all He Hfuel; [lia|].
  rewrite ls_fuel_directory;
    [|now apply entered_not_empty|now apply entered_is_directory].
  destruct (IO.readdirSync F (join "/" path)) as [files|e] eqn:Hr; simpl.
  - pose proof (for_files_outcome n IH path files He Hr Hfuel files
                  {| IO._allFiles := all; IO._path := path |}
                  (incl_refl _) eq_refl) as H.
    destruct (IO.for_files _ files _) as [a'|e|]; simpl in *; auto.
  - left. exists path. auto.
Qed.

(** *** Every failure is met *)

Local Abbreviation raises := (IO.always_raises F recurse).

Lemma for_files_raises n path files file :
  entered path ->
  IO.readdirSync F (join "/" path) = Normal files ->
  (Z.to_nat (recurse - Z.of_nat (length path)) < S n)%nat ->
  (forall a, IO._path a = path ->
     exists e, IO.ls_entry F (self n) recurse a file = IO.Raise e) ->
  forall rest a,
    incl rest files ->
    In file rest ->
    IO._path a = path ->
    exists e, IO.for_files (IO.ls_entry F (self n) recurse) rest a = IO.Raise e.
Proof.
  intros He Hr Hfuel Hraise rest.
  induction rest as [|f rest IH]; intros a Hincl Hin Hp; [destruct Hin|].
  simpl.
  pose proof (ls_entry_outcome n (ls_fuel_outcome n) path files f a He Hr
                (Hincl f (or_introl eq_refl)) Hfuel Hp) as H1.
  destruct (IO.ls_entry F (self n) recurse a f) as [a1|e|] eqn:E; simpl.
  - destruct Hin as [->|Hin].
    + destruct (Hraise a Hp) as [e He']. congruence.
    + apply IH; [|exact Hin|exact (proj1 H1)].
      intros x Hx. apply Hincl. now right.
  - now exists e.
  - destruct H1.
Qed.

Lemma raises_at_read path e :
  entered path ->
  IO.readdirSync F (join "/" path) = Throw e ->
  raises path.
Proof.
  intros He Hr n all Hfuel. destruct n as [|n]; [lia|].
  rewrite ls_fuel_directory;
    [|now apply entered_not_empty|now apply entered_is_directory].
  rewrite Hr. now exists e.
Qed.

Lemma raises_at_entry path files file e :
  entered path ->
  IO.readdirSync F (join "/" path) = Normal files ->
  In file files ->
  IO.is_dot_file file = false ->
  IO.statSync F (join "/" path +:+ "/" +:+ file) = Throw e ->
  raises path.
Proof.
  intros He Hr Hin Hdot Hs n all Hfuel. destruct n as [|n]; [lia|].
  rewrite ls_fuel_directory;
    [|now apply entered_not_empty|now apply entered_is_directory].
  rewrite Hr. simpl.
  destruct (for_files_raises n path files file He Hr Hfuel) with
    (rest := files) (a := {| IO._allFiles := all; IO._path := path |})
    as [e' He']; [|apply incl_refl|exact Hin|reflexivity|].
  - intros a Hp. unfold IO.ls_entry. rewrite Hdot, Hp, Hs. now exists e.
  - rewrite He'. now exists e'.
Qed.

Lemma raises_from_below path files file :
  entered path ->
  IO.readdirSync F (join "/" path) = Normal files ->
  In file files ->
  IO.is_dot_file file = false ->
  IO.statSync F (join "/" path +:+ "/" +:+ file) = Normal {| IO.isDirectory := true |} ->
  (Z.of_nat (length path) < recurse)%Z ->
  raises (path ++ [file]) ->
  raises path.
Proof.
  intros He Hr Hin Hdot Hs Hd Hsub n all Hfuel. destruct n as [|n]; [lia|].
  rewrite ls_fuel_directory;
    [|now apply entered_not_empty|now apply entered_is_directory].
  rewrite Hr. simpl.
  destruct (for_files_raises n path files file He Hr Hfuel) with
    (rest := files) (a := {| IO._allFiles := all; IO._path := path |})
    as [e' He']; [|apply incl_refl|exact Hin|reflexivity|].
  - intros a Hp. unfold IO.ls_entry. rewrite Hdot, Hp, Hs. simpl.
    unfold push. rewrite length_app. simpl.
    destruct (Z.of_nat (length path + 1) - 1 <? recurse)%Z eqn:E;
      [|apply Z.ltb_ge in E; lia].
    destruct (Hsub n (IO._allFiles a)) as [e He'].
    { rewrite length_app. simpl. lia. }
    rewrite He'. now exists e.
  - rewrite He'. now exists e'.
Qed.

Lemma raises_at_start path : entered path -> raises path -> raises [dir].
Proof.
  intros Hent.
  induction Hent as [Hstart|path files file He IH Hr Hin Hdot Hs Hd];
    intros Hra; [exact Hra|].
  apply IH. now apply (raises_from_below path files file).
Qed.

Lemma failure_raises e : failure e -> raises [dir].
Proof.
  intros [(path & He & Hr)|(path & files & file & He & Hr & Hin & Hdot & Hs)].
  - apply (raises_at_start path He). now apply (raises_at_read path e).
  - apply (raises_at_start path He). now apply (raises_at_entry path files file e).
Qed.

(** *** The entry point *)

Section EntryPoint.
Context (depth : option Z).
Hypothesis depth_default : default 1%Z depth = recurse.

Lemma ls_entry_point :
  IO.ls F dir depth =
  match IO.statSync F dir with
  | Throw e => IO.Raise e
  | Normal s =>
      if IO.isDirectory s
      then r ← IO.ls_fuel F (IO.fuel_for depth) dir (Some recurse) [] (Some [dir]);
           mret (fst r)
      else IO.Ok [dir]
  end.
Proof.
  unfold IO.ls, IO.fuel_for. rewrite depth_default.
  assert (Hr : match depth with Some r => r | None => 1%Z end = recurse).
  { rewrite <- depth_default. now destruct depth. }
  simpl. rewrite Hr.
  destruct (IO.statSync F dir) as [[[|]]|e]; reflexivity.
Qed.

Lemma fuel_for_enough :
  (Z.to_nat (recurse - Z.of_nat (length [dir])) < IO.fuel_for depth)%nat.
Proof. unfold IO.fuel_for. rewrite depth_default. simpl. lia. Qed.

Lemma ls_outcome :
  match IO.ls F dir depth with
  | IO.Ok out =>
      (IO.statSync F dir = Normal {| IO.isDirectory := false |} /\ out = [dir]) \/
      (IO.statSync F dir = Normal {| IO.isDirectory := true |} /\ Forall listed out)
  | IO.Raise e => IO.statSync F dir = Throw e \/ failure e
  | IO.OutOfFuel => False
  end.
Proof.
  rewrite ls_entry_point.
  destruct (IO.statSync F dir) as [[[|]]|e] eqn:Hs; cbn [IO.isDirectory]; auto.
  pose proof (ls_fuel_outcome (IO.fuel_for depth) [dir] []
                (IO.entered_start F dir recurse Hs) fuel_for_enough) as H.
  change (join "/" [dir]) with dir in H.
  destruct (IO.ls_fuel F (IO.fuel_for depth) dir (Some recurse) [] (Some [dir]))
    as [[ret a]|e|]; simpl in *; auto.
  right. split; [reflexivity|].
  destruct H as [-> [_ (new & -> & Hnew)]]. exact Hnew.
Qed.

Lemma ls_raises e :
  IO.statSync F dir = Throw e \/ failure e ->
  exists e', IO.ls F dir depth = IO.Raise e'.
Proof.
  intros H. rewrite ls_entry_point.
  destruct (IO.statSync F dir) as [[[|]]|e0] eqn:Hs; cbn [IO.isDirectory].
  - destruct H as [H|H]; [discriminate|].
    destruct (failure_raises e H (IO.fuel_for depth) [] fuel_for_enough) as [e' He'].
    change (join "/" [dir]) with dir in He'. rewrite He'. now exists e'.
  - destruct H as [H|[(path & He & _)|(path & _ & _ & He & _)]]; [discriminate| |].
    + apply entered_start_is_directory in He. congruence.
    + apply entered_start_is_directory in He. congruence.
  - now exists e0.
Qed.

End EntryPoint.

End LsProperties.

(** *** The example tree *)

Lemma example_orders (top sub : list (string * IO.node)) :
  Permutation sub IO.sub_entries ->
  Permutation top (IO.root_entries sub) ->
  (sub = [("y.js", IO.File); (".hidden.js", IO.File)] \/
   sub = [(".hidden.js", IO.File); ("y.js", IO.File)]) /\
  (top = [("x.js", IO.File); ("sub", IO.Dir sub)] \/
   top = [("sub", IO.Dir sub); ("x.js", IO.File)]).
Proof.
  intros Hsub Htop. split.
  - symmetry in Hsub. now apply Permutation_length_2_inv in Hsub.
  - symmetry in Htop. now apply Permutation_length_2_inv in Htop.
Qed.

Ltac example_entry H :=
  vm_compute in H; first [discriminate H | injection H as <-].

Lemma example_entered top sub depth path :
  Permutation sub IO.sub_entries ->
  Permutation top (IO.root_entries sub) ->
  IO.entered (IO.example_fs top) "root" depth path ->
  path = ["root"] \/ path = ["root"; "sub"].
Proof.
  intros Hsub Htop.
  destruct (example_orders top sub Hsub Htop) as [[-> | ->] [-> | ->]];
    (induction 1 as [|path files file _ IH Hr Hin Hdot Hs _]; [now left|]);
    (destruct IH as [-> | ->]; example_entry Hr;
     repeat (destruct Hin as [<- | Hin]);
     first [ destruct Hin
           | now right
           | vm_compute in Hs; discriminate Hs
           | vm_compute in Hdot; discriminate Hdot ]).
Qed.

Lemma example_listed top sub depth x :
  Permutation sub IO.sub_entries ->
  Permutation top (IO.root_entries sub) ->
  IO.listed (IO.example_fs top) "root" depth x ->
  x = "root/x.js" \/ x = "root/sub/y.js".
Proof.
  intros Hsub Htop (path & files & file & He & Hr & Hin & Hdot & Hs & ->).
  apply (example_entered top sub depth path Hsub Htop) in He.
  destruct (example_orders top sub Hsub Htop) as [[-> | ->] [-> | ->]];
    (destruct He as [-> | ->]; example_entry Hr;
     repeat (destruct Hin as [<- | Hin]);
     first [ destruct Hin
           | now left
           | now right
           | vm_compute in Hs; discriminate Hs
           | vm_compute in Hdot; discriminate Hdot ]).
Qed.

(** C1: on the tree [root/{x.js, sub/{y.js, .hidden.js}}], in whatever
    order the two directories are read, [IO.ls] with depth 1 returns the
    path [root/x.js] alone and with depth 2 the paths [root/x.js] and
    [root/sub/y.js]; whatever the depth, the path of [.hidden.js] is not
    in what it returns; and on
    any file system all that it returns for a directory are paths of
    entries that are not dot files, in directories that it entered through
    entries that are not dot files. *)
Theorem ls_example_tree (top sub : list (string * IO.node)) :
  Permutation sub IO.sub_entries ->
  Permutation top (IO.root_entries sub) ->
  (exists out, IO.ls (IO.example_fs top) "root" (Some 1%Z) = IO.Ok out /\
               Permutation out ["root/x.js"]) /\
  (exists out, IO.ls (IO.example_fs top) "root" (Some 2%Z) = IO.Ok out /\
               Permutation out ["root/x.js"; "root/sub/y.js"]) /\
  (forall depth out,
     IO.ls (IO.example_fs top) "root" depth = IO.Ok out ->
     ~ In "root/sub/.hidden.js" out) /\
  (forall F dir depth out,
     IO.ls F dir depth = IO.Ok out ->
     out = [dir] \/ Forall (IO.listed F dir (default 1%Z depth)) out).
Proof.
  intros Hsub Htop. split; [|split; [|split]].
  - destruct (example_orders top sub Hsub Htop) as [[-> | ->] [-> | ->]];
      eexists; (split; [vm_compute; reflexivity | reflexivity]).
  - destruct (example_orders top sub Hsub Htop) as [[-> | ->] [-> | ->]];
      eexists; (split; [vm_compute; reflexivity |]);
      first [reflexivity | apply perm_swap].
  - intros depth out Hout Hin.
    pose proof (ls_outcome (IO.example_fs top) "root" (default 1%Z depth) depth eq_refl) as H.
    rewrite Hout in H. destruct H as [[Hs _]|[_ Hl]].
    + destruct (example_orders top sub Hsub Htop) as [_ [-> | ->]];
        vm_compute in Hs; discriminate Hs.
    + rewrite Forall_forall in Hl. apply list_elem_of_In, Hl in Hin.
      apply (example_listed top sub _ _ Hsub Htop) in Hin.
      destruct Hin as [Hin|Hin]; discriminate Hin.
  - intros F dir depth out Hout.
    pose proof (ls_outcome F dir (default 1%Z depth) depth eq_refl) as H.
    rewrite Hout in H. destruct H as [[_ ->]|[_ Hl]]; [now left | now right].
Qed.

Lemma ls_example_tree_witness :
  exists out,
    IO.ls (IO.example_fs [("sub", IO.Dir [(".hidden.js", IO.File); ("y.js", IO.File)]);
                          ("x.js", IO.File)])
          "root" (Some 2%Z) = IO.Ok out /\
    Permutation out ["root/x.js"; "root/sub/y.js"].
Proof.
  apply (ls_example_tree
           [("sub", IO.Dir [(".hidden.js", IO.File); ("y.js", IO.File)]); ("x.js", IO.File)]
           [(".hidden.js", IO.File); ("y.js", IO.File)]).
  - apply perm_swap.
  - apply perm_swap.
Defined.

(** C6: when the start path is a plain file, [IO.ls] returns the list of
    that path alone, for every depth and for none. *)
Theorem ls_of_plain_file (F : IO.fs) (dir : string) (depth : option Z) :
  IO.statSync F dir = Normal {| IO.isDirectory := false |} ->
  IO.ls F dir depth = IO.Ok [dir].
Proof.
  intros H. rewrite (ls_entry_point F dir (default 1%Z depth) depth eq_refl).
  now rewrite H.
Qed.

Lemma ls_of_plain_file_witness :
  IO.ls (IO.example_fs (IO.root_entries IO.sub_entries)) "root/sub/y.js" (Some 0%Z) =
  IO.Ok ["root/sub/y.js"].
Proof.
  apply (ls_of_plain_file (IO.example_fs (IO.root_entries IO.sub_entries))
           "root/sub/y.js" (Some 0%Z)).
  vm_compute. reflexivity.
Defined.

(** *** Failures *)

Lemma dangling_entered depth path :
  IO.entered IO.dangling_fs "root" depth path -> path = ["root"].
Proof.
  induction 1 as [|path files file _ IH Hr Hin Hdot Hs _]; [reflexivity|].
  subst path. example_entry Hr.
  destruct Hin as [<- | []]. vm_compute in Hs. discriminate Hs.
Qed.

(** C7, as stated, fails on a directory that holds a dangling symbolic
    link: the start path exists and every directory can be read, yet
    [IO.ls] throws the error of the status call on the link. *)
Lemma dangling_link_fails :
  IO.ls IO.dangling_fs "root" (Some 1%Z) = IO.Raise (FsError ENOENT) /\
  Spec.fails IO.dangling_fs "root" (Some 1%Z) /\
  ~ IO.spec_failure IO.dangling_fs "root" 1 /\
  ~ (forall F dir depth,
       Spec.fails F dir depth <-> IO.spec_failure F dir (default 1%Z depth)).
Proof.
  assert (Hfails : Spec.fails IO.dangling_fs "root" (Some 1%Z)).
  { exists (FsError ENOENT). reflexivity. }
  assert (Hnot : ~ IO.spec_failure IO.dangling_fs "root" 1).
  { intros [[e He]|[e (path & Hp & He)]].
    - vm_compute in He. discriminate He.
    - apply dangling_entered in Hp. subst path.
      vm_compute in He. discriminate He. }
  split; [reflexivity|]. split; [exact Hfails|]. split; [exact Hnot|].
  intros H. apply Hnot. now apply (H IO.dangling_fs "root" (Some 1%Z)).
Qed.

(** C7, amended: [IO.ls] throws exactly when the status of the start path
    cannot be had, or reading a directory entered within the depth bound
    fails, or the status of an entry, not a dot file, of such a directory
    cannot be had.  What it throws is the error of the file system call
    that failed, and then it returns no list; otherwise it returns a list:
    the depth bounds the recursion. *)
Theorem ls_fails_exactly (F : IO.fs) (dir : string) (depth : option Z) :
  (Spec.fails F dir depth <->
   IO.spec_failure F dir (default 1%Z depth) \/
   exists e, IO.entry_failure F dir (default 1%Z depth) e) /\
  (forall e,
     IO.ls F dir depth = IO.Raise e ->
     IO.statSync F dir = Throw e \/
     IO.read_failure F dir (default 1%Z depth) e \/
     IO.entry_failure F dir (default 1%Z depth) e) /\
  (Spec.fails F dir depth \/ exists out, IO.ls F dir depth = IO.Ok out).
Proof.
  pose proof (ls_outcome F dir (default 1%Z depth) depth eq_refl) as Hout.
  assert (Hsound : forall e,
             IO.ls F dir depth = IO.Raise e ->
             IO.statSync F dir = Throw e \/
             IO.read_failure F dir (default 1%Z depth) e \/
             IO.entry_failure F dir (default 1%Z depth) e).
  { intros e He. rewrite He in Hout. destruct Hout as [H|[H|H]]; auto. }
  split; [split|split; [exact Hsound|]].
  - intros [e He]. destruct (Hsound e He) as [H|[H|H]].
    + left. left. now exists e.
    + left. right. now exists e.
    + right. now exists e.
  - intros [[[e H]|[e H]]|[e H]];
      apply (ls_raises F dir (default 1%Z depth) depth eq_refl e).
    + now left.
    + right. now left.
    + right. now right.
  - destruct (IO.ls F dir depth) as [out|e|] eqn:E.
    + right. now exists out.
    + left. now exists e.
    + destruct Hout.
Qed.

Lemma ls_fails_exactly_witness :
  IO.statSync IO.dangling_fs "root" = Throw (FsError ENOENT) \/
  IO.read_failure IO.dangling_fs "root" 1 (FsError ENOENT) \/
  IO.entry_failure IO.dangling_fs "root" 1 (FsError ENOENT).
Proof.
  apply (proj1 (proj2 (ls_fails_exactly IO.dangling_fs "root" (Some 1%Z)))).
  reflexivity.
Defined.

(** * Further properties of the path model *)

(** ** [FilePath.fileName] and [FilePath.dir] *)

Lemma lastIndexOf_lower c s : (-1 <= lastIndexOf c s)%Z.
Proof.
  induction s as [|d rest IH]; simpl; [lia|].
  destruct (0 <=? lastIndexOf c rest)%Z; [lia|].
  destruct (Ascii.eqb d c); lia.
Qed.

Lemma name_start_spec s :
  Z.max (Z.max (lastIndexOf "/" s + 1) (lastIndexOf "\" s + 1)) 0 =
  Z.of_nat (Spec.name_start s).
Proof.
  induction s as [|d rest IH]; [reflexivity|].
  pose proof (lastIndexOf_lower "/" rest) as H1.
  pose proof (lastIndexOf_lower "\" rest) as H2.
  cbn [lastIndexOf Spec.name_start]. unfold FilePath.is_slash.
  destruct (Spec.name_start rest) as [|k];
    destruct (Z.leb_spec 0 (lastIndexOf "/" rest));
    destruct (Z.leb_spec 0 (lastIndexOf "\" rest));
    destruct (Ascii.eqb d "/"), (Ascii.eqb d "\"); simpl orb; cbv iota; lia.
Qed.

Lemma name_start_le s : Spec.name_start s <= String.length s.
Proof.
  induction s as [|d rest IH]; simpl; [lia|].
  destruct (Spec.name_start rest); [destruct (FilePath.is_slash d)|]; lia.
Qed.

Lemma substring_all s : String.substring 0 (String.length s) s = s.
Proof. induction s as [|d rest IH]; simpl; [reflexivity | now rewrite IH]. Qed.

Lemma fileName_substring s :
  FilePath.fileName s =
  String.substring (Spec.name_start s) (String.length s - Spec.name_start s) s.
Proof.
  unfold FilePath.fileName. rewrite name_start_spec.
  pose proof (name_start_le s) as Hle.
  unfold substring, clamp.
  replace (Z.to_nat (Z.min (Z.max (Z.of_nat (Spec.name_start s)) 0)
                           (Z.of_nat (String.length s))))
    with (Spec.name_start s) by lia.
  now rewrite Nat.min_l, Nat.max_r by lia.
Qed.

Lemma dir_substring s :
  FilePath.dir s = String.substring 0 (Spec.name_start s - 1) s.
Proof.
  unfold FilePath.dir. rewrite name_start_spec.
  pose proof (name_start_le s) as Hle.
  unfold substring, clamp.
  replace (Z.to_nat (Z.min (Z.max 0 0) (Z.of_nat (String.length s))))
    with 0 by lia.
  replace (Z.to_nat (Z.min (Z.max (Z.of_nat (Spec.name_start s) - 1) 0)
                           (Z.of_nat (String.length s))))
    with (Spec.name_start s - 1) by lia.
  now rewrite Nat.min_l, Nat.max_r, Nat.sub_0_r by lia.
Qed.

Lemma split_tokens_clean sep s :
  Forall (fun tok => forall c, Spec.occurs c tok = true -> sep c = false)
         (split sep s).
Proof.
  induction s as [|d rest IH]; simpl.
  - constructor; [|constructor]. intros c H. discriminate H.
  - destruct (sep d) eqn:Hd.
    + constructor; [|exact IH]. intros c H. discriminate H.
    + destruct (split sep rest) as [|tok toks]; [repeat constructor|].
      * intros c H. simpl in H. rewrite orb_false_r in H.
        apply Ascii.eqb_eq in H. now subst.
      * inversion IH as [|? ? Htok Htoks]; subst. constructor; [|exact Htoks].
        intros c H. simpl in H. apply orb_true_iff in H as [H|H].
        -- apply Ascii.eqb_eq in H. now subst.
        -- now apply Htok.
Qed.

Lemma name_start_tokens s :
  String.substring (Spec.name_start s) (String.length s - Spec.name_start s) s =
    default "" (last (split FilePath.is_slash s)) /\
  (Spec.name_start s = 0 -> split FilePath.is_slash s = [s]) /\
  (0 < Spec.name_start s -> 2 <= length (split FilePath.is_slash s)).
Proof.
  induction s as [|d rest (IH1 & IH2 & IH3)]; [simpl; repeat split; lia|].
  cbn [Spec.name_start split String.length].
  destruct (Spec.name_start rest) as [|k] eqn:Hn.
  - rewrite (IH2 eq_refl).
    destruct (FilePath.is_slash d); (split; [|split; [|simpl; lia]]).
    + simpl. rewrite Nat.sub_0_r. apply substring_all.
    + discriminate.
    + simpl. now rewrite substring_all.
    + reflexivity.
  - assert (H2 : 2 <= length (split FilePath.is_slash rest)) by (apply IH3; lia).
    destruct (split FilePath.is_slash rest) as [|t1 [|t2 ts]];
      [simpl in H2; lia | simpl in H2; lia |].
    split; [|split; [discriminate|]].
    + change (String.substring (S (S k)) (S (String.length rest) - S (S k)) (String d rest))
        with (String.substring (S k) (String.length rest - S k) rest).
      rewrite IH1. now destruct (FilePath.is_slash d).
    + intros _. destruct (FilePath.is_slash d); simpl; lia.
Qed.

Lemma name_start_round_trip s :
  0 < Spec.name_start s ->
  exists c, FilePath.is_slash c = true /\
    s = String.substring 0 (Spec.name_start s - 1) s +:+
        String c (String.substring (Spec.name_start s)
                    (String.length s - Spec.name_start s) s).
Proof.
  induction s as [|d rest IH]; [simpl; lia|].
  cbn [Spec.name_start String.length].
  destruct (Spec.name_start rest) as [|k] eqn:Hn.
  - destruct (FilePath.is_slash d) eqn:Hd; [|lia]. intros _. exists d.
    split; [exact Hd|]. simpl. rewrite Nat.sub_0_r. now rewrite substring_all.
  - intros _. destruct IH as (c & Hc & Hrest); [lia|]. exists c.
    split; [exact Hc|].
    change (String.substring (S (S k)) (S (String.length rest) - S (S k)) (String d rest))
      with (String.substring (S k) (String.length rest - S k) rest).
    replace (S (S k) - 1) with (S k) by lia.
    change (String.substring 0 (S k) (String d rest))
      with (String d (String.substring 0 k rest)).
    rewrite append_cons. f_equal.
    replace k with (S k - 1) at 1 by lia. exact Hrest.
Qed.

(** X1: [FilePath.fileName] returns the last of the tokens into which the
    constructor splits the path, which holds no separator; for a path with
    a separator it is the file name that the constructor keeps. *)
Theorem fileName_is_last_token :
  (forall path,
     FilePath.fileName path = default "" (last (split FilePath.is_slash path))) /\
  (forall path c,
     Spec.occurs c (FilePath.fileName path) = true -> FilePath.is_slash c = false) /\
  (forall path separator p,
     FilePath.new (VString path) separator = Normal p ->
     (2 <= length (split FilePath.is_slash path))%nat ->
     FilePath.file p = FilePath.fileName path).
Proof.
  assert (Hlast : forall path,
             FilePath.fileName path = default "" (last (split FilePath.is_slash path))).
  { intros path. rewrite fileName_substring. apply name_start_tokens. }
  split; [exact Hlast|split].
  - intros path c. rewrite Hlast.
    pose proof (split_tokens_clean FilePath.is_slash path) as Hclean.
    destruct (last (split FilePath.is_slash path)) as [tok|] eqn:Hl; simpl.
    + apply last_Some_elem_of in Hl. rewrite Forall_forall in Hclean.
      apply Hclean, Hl.
    + discriminate.
  - intros path separator p Hnew Hlen. rewrite Hlast.
    destruct (new_fields _ _ _ Hnew) as (first & rest & Hs & _ & _ & Hf & _).
    rewrite Hs in *. destruct rest as [|second rest]; [simpl in Hlen; lia|].
    now rewrite last_cons_cons.
Qed.

Lemma fileName_is_last_token_witness :
  FilePath.file (FilePath.mk "/" "C:/" ["x"] "y.js") = FilePath.fileName "C:\x/y.js".
Proof.
  apply (proj2 (proj2 fileName_is_last_token) "C:\x/y.js" None).
  - reflexivity.
  - vm_compute. lia.
Defined.

(** X2: a path without separator has the empty directory part and is its
    own file name; any other path is its directory part, one separator
    and its file name. *)
Theorem dir_fileName_round_trip (path : string) :
  ((forall c, Spec.occurs c path = true -> FilePath.is_slash c = false) /\
   FilePath.dir path = "" /\ FilePath.fileName path = path) \/
  (exists c, FilePath.is_slash c = true /\
             path = FilePath.dir path +:+ String c (FilePath.fileName path)).
Proof.
  rewrite fileName_substring, dir_substring.
  destruct (Spec.name_start path) as [|k] eqn:Hn.
  - left. destruct (name_start_tokens path) as (_ & H2 & _).
    rewrite Hn in H2. specialize (H2 eq_refl).
    split; [|split].
    + pose proof (split_tokens_clean FilePath.is_slash path) as Hclean.
      rewrite H2 in Hclean. now inversion Hclean.
    + now destruct path.
    + rewrite Nat.sub_0_r. apply substring_all.
  - right. rewrite <- Hn. apply name_start_round_trip. lia.
Qed.

(** ** How the operations of [FilePath] compose *)

(** X3: [toDir] twice is [toDir] once; [upDir] clears the file name by
    itself, so that [toDir] before or after it changes nothing; and
    [toString] is the directory that [toDir] leaves followed by the file
    name. *)
Theorem toDir_upDir_compose (p : FilePath.t) :
  FilePath.toDir (FilePath.toDir p) = FilePath.toDir p /\
  FilePath.upDir (FilePath.toDir p) = FilePath.upDir p /\
  FilePath.toDir (FilePath.upDir p) = FilePath.upDir p /\
  FilePath.toString p = FilePath.toString (FilePath.toDir p) +:+ FilePath.file p.
Proof.
  destruct p as [sl rt pa [|c fl]]; repeat split.
  - unfold FilePath.upDir, FilePath.toDir. simpl. now destruct pa.
  - unfold FilePath.toString. simpl. now rewrite !append_empty_r.
  - unfold FilePath.upDir, FilePath.toDir. simpl. now destruct pa.
  - unfold FilePath.toString. simpl. rewrite append_empty_r.
    now rewrite !append_assoc.
Qed.

Lemma resolve_fold_Forall (P : string -> Prop) items acc :
  Forall P acc -> Forall P items ->
  Forall P (fold_left FilePath.resolve_step items acc).
Proof.
  revert acc. induction items as [|item items IH]; intros acc Ha Hi; [exact Ha|].
  inversion Hi as [|? ? Hitem Hitems]; subst. simpl. apply IH; [|exact Hitems].
  unfold FilePath.resolve_step.
  destruct (String.eqb item ".."); [now apply Forall_pop|].
  destruct (negb (String.eqb item ".")); [|exact Ha].
  unfold push. apply Forall_app. split; [exact Ha | now constructor].
Qed.

Lemma resolve_fold_resolved_id items acc :
  Spec.resolved items ->
  fold_left FilePath.resolve_step items acc = acc ++ items.
Proof.
  revert acc. induction items as [|item items IH]; intros acc H; simpl.
  - now rewrite app_nil_r.
  - inversion H as [|? ? [Hd Hdd] Hitems]; subst.
    rewrite IH by exact Hitems. unfold FilePath.resolve_step.
    destruct (String.eqb_spec item "..") as [?|_]; [contradiction|].
    destruct (String.eqb_spec item ".") as [?|_]; [contradiction|].
    simpl. unfold push. now rewrite <- app_assoc.
Qed.

Lemma resolve_fold_length items acc :
  length (fold_left FilePath.resolve_step items acc) <= length acc + length items.
Proof.
  revert acc. induction items as [|item items IH]; intros acc; simpl; [lia|].
  etransitivity; [apply IH|]. unfold FilePath.resolve_step.
  destruct (String.eqb item "..").
  - unfold pop. rewrite removelast_firstn_len, length_take. lia.
  - destruct (negb (String.eqb item ".")); [|lia].
    unfold push. rewrite length_app. simpl. lia.
Qed.

(** X4: in the resolution a name followed by [..] leaves nothing, a [.]
    leaves nothing, a list without markers is left as it is, so that
    resolving twice is resolving once, and the result is never longer than
    the input. *)
Theorem resolvePath_cancels :
  (forall before seg after,
     seg <> "." -> seg <> ".." ->
     fold_left FilePath.resolve_step (before ++ seg :: ".." :: after) [] =
     fold_left FilePath.resolve_step (before ++ after) []) /\
  (forall before after,
     fold_left FilePath.resolve_step (before ++ "." :: after) [] =
     fold_left FilePath.resolve_step (before ++ after) []) /\
  (forall segments,
     Spec.resolved segments ->
     fold_left FilePath.resolve_step segments [] = segments) /\
  (forall p,
     FilePath.resolvePath (FilePath.set_path (FilePath.resolvePath p) p) =
     FilePath.resolvePath p) /\
  (forall p, (length (FilePath.resolvePath p) <= length (FilePath.path p))%nat).
Proof.
  split; [|split; [|split; [|split]]].
  - intros before seg after Hd Hdd. rewrite !fold_left_app. simpl. f_equal.
    unfold FilePath.resolve_step at 2.
    destruct (String.eqb_spec seg "..") as [?|_]; [contradiction|].
    destruct (String.eqb_spec seg ".") as [?|_]; [contradiction|].
    simpl. unfold FilePath.resolve_step, push, pop. simpl.
    apply removelast_last.
  - intros before after. now rewrite !fold_left_app.
  - intros segments H. now rewrite resolve_fold_resolved_id.
  - intros p. unfold FilePath.resolvePath at 1. simpl.
    rewrite resolve_fold_resolved_id; [reflexivity|].
    apply resolve_fold_resolved. constructor.
  - intros p. unfold FilePath.resolvePath.
    now rewrite resolve_fold_length.
Qed.

Lemma resolvePath_cancels_witness :
  fold_left FilePath.resolve_step (["a"] ++ "b" :: ".." :: ["c"]) [] =
  fold_left FilePath.resolve_step (["a"] ++ ["c"]) [].
Proof.
  apply (proj1 resolvePath_cancels ["a"] "b" ["c"]); discriminate.
Defined.

(** ** Printing and reading back *)

Lemma join_one sep x : join sep [x] = x.
Proof. reflexivity. Qed.

Lemma join_cons sep x y l :
  join sep (x :: y :: l) = x +:+ sep +:+ join sep (y :: l).
Proof. now rewrite !join_concat. Qed.

Lemma split_join c sep toks :
  sep c = true ->
  toks <> [] ->
  Forall (fun tok => forall d, Spec.occurs d tok = true -> sep d = false) toks ->
  split sep (join (String c "") toks) = toks.
Proof.
  intros Hc Hne H. induction H as [|x l Hx Hl IH]; [contradiction|].
  destruct l as [|y l].
  - rewrite join_one. now apply split_no_separator.
  - rewrite join_cons. rewrite append_cons, append_nil_l.
    rewrite split_at_separator by exact Hc.
    rewrite IH by discriminate. now rewrite split_no_separator.
Qed.

Lemma join_split c sep s :
  (forall d, Spec.occurs d s = true -> sep d = true -> d = c) ->
  join (String c "") (split sep s) = s.
Proof.
  induction s as [|d rest IH]; intros H; [reflexivity|].
  assert (Hrest : join (String c "") (split sep rest) = rest).
  { apply IH. intros e He. apply H. simpl. rewrite He. apply orb_true_r. }
  simpl. pose proof (split_not_nil sep rest) as Hne.
  destruct (sep d) eqn:Hd.
  - assert (d = c) as -> by (apply H; [simpl; now rewrite Ascii.eqb_refl | exact Hd]).
    destruct (split sep rest) as [|tok toks]; [contradiction|].
    rewrite join_cons, Hrest. reflexivity.
  - destruct (split sep rest) as [|tok [|tok2 toks]]; [contradiction| |].
    + rewrite join_one in *. now subst.
    + rewrite join_cons in *. rewrite append_cons. now rewrite Hrest.
Qed.

Lemma toString_as_join p first :
  FilePath.root p = first +:+ FilePath.slash p ->
  FilePath.toString p =
  join (FilePath.slash p) (first :: FilePath.path p ++ [FilePath.file p]).
Proof.
  intros Hr. unfold FilePath.toString. rewrite Hr.
  destruct (FilePath.path p) as [|x l] eqn:Hp.
  - simpl app. rewrite join_cons, join_one. simpl.
    now rewrite append_assoc.
  - change ((x :: l) ++ [FilePath.file p]) with (x :: (l ++ [FilePath.file p])).
    rewrite join_cons. change (x :: (l ++ [FilePath.file p])) with ((x :: l) ++ [FilePath.file p]).
    rewrite join_snoc. simpl length.
    change (0 <? S (length l))%nat with true. cbv iota.
    now rewrite !append_assoc.
Qed.

(** X5: when the input has a separator and no marker among its middle
    tokens, [toString] after construction is the tokens of the input joined
    by the separator of the path: the input with its separators made
    uniform, and the input itself when it has no backslash and the
    separator is the default one. *)
Theorem toString_new_round_trip :
  (forall absPath separator p,
     FilePath.new (VString absPath) separator = Normal p ->
     (2 <= length (split FilePath.is_slash absPath))%nat ->
     Spec.resolved (removelast (tail (split FilePath.is_slash absPath))) ->
     FilePath.toString p =
       join (FilePath.slash p) (split FilePath.is_slash absPath)) /\
  (forall absPath,
     (2 <= length (split FilePath.is_slash absPath))%nat ->
     Spec.resolved (removelast (tail (split FilePath.is_slash absPath))) ->
     Spec.occurs "\" absPath = false ->
     (p ← FilePath.new (VString absPath) None;
      mret (FilePath.toString p)) = Normal absPath).
Proof.
  assert (Hjoin : forall absPath separator p,
     FilePath.new (VString absPath) separator = Normal p ->
     (2 <= length (split FilePath.is_slash absPath))%nat ->
     Spec.resolved (removelast (tail (split FilePath.is_slash absPath))) ->
     FilePath.toString p =
       join (FilePath.slash p) (split FilePath.is_slash absPath)).
  { intros absPath separator p Hnew Hlen Hres.
    destruct (new_fields _ _ _ Hnew) as (first & rest & Hs & _ & Hr & Hf & Hp).
    rewrite Hs in *. simpl tail in Hres.
    rewrite (toString_as_join p first Hr). f_equal. f_equal.
    rewrite Hp, Hf, resolve_fold_resolved_id by exact Hres. simpl.
    destruct rest as [|second rest]; [simpl in Hlen; lia|].
    destruct (last (second :: rest)) as [l|] eqn:Hl.
    - simpl. symmetry. rewrite (app_removelast_last l) at 1 by discriminate.
      f_equal. f_equal. apply last_Some in Hl as [l' Hl]. rewrite Hl.
      now rewrite List.last_last.
    - apply last_None in Hl. discriminate. }
  split; [exact Hjoin|].
  intros absPath Hlen Hres Hback.
  destruct (new_total absPath None) as [p Hp]. rewrite Hp. simpl. f_equal.
  rewrite (Hjoin absPath None p Hp Hlen Hres).
  destruct (new_fields _ _ _ Hp) as (_ & _ & _ & -> & _).
  apply join_split. intros d Hd Hsep. unfold FilePath.is_slash in Hsep.
  apply orb_true_iff in Hsep as [H|H]; apply Ascii.eqb_eq in H; subst; congruence.
Qed.

Lemma toString_new_round_trip_witness :
  (p ← FilePath.new (VString "C:/Program Files//jsdoc/run.js") None;
   mret (FilePath.toString p)) = Normal "C:/Program Files//jsdoc/run.js".
Proof.
  apply (proj2 toString_new_round_trip).
  - vm_compute. lia.
  - vm_compute. repeat constructor; discriminate.
  - reflexivity.
Defined.

(** X6: with the default separator, or with one of the two characters
    that the constructor splits on, constructing a path from what
    [toString] prints of a constructed path gives that path again: the
    normal form is stable. *)
Theorem new_toString_idempotent
    (absPath : string) (separator : option string) (p : FilePath.t) :
  separator = None \/ separator = Some "/" \/ separator = Some "\" ->
  FilePath.new (VString absPath) separator = Normal p ->
  FilePath.new (VString (FilePath.toString p)) separator = Normal p.
Proof.
  intros Hsep Hnew.
  destruct (new_fields _ _ _ Hnew) as (first & rest & Hs & Hsl & Hr & Hf & Hp).
  assert (Hc : exists c, FilePath.is_slash c = true /\ FilePath.slash p = String c "").
  { destruct Hsep as [->|[->| ->]]; rewrite Hsl;
      [exists "/"%char | exists "/"%char | exists "\"%char]; now split. }
  destruct Hc as (c & Hc & Hslash).
  pose proof (split_tokens_clean FilePath.is_slash absPath) as Hclean.
  rewrite Hs in Hclean. inversion Hclean as [|? ? Hfirst Hrest]; subst.
  assert (Hsplit : split FilePath.is_slash (FilePath.toString p) =
                   first :: FilePath.path p ++ [FilePath.file p]).
  { rewrite (toString_as_join p first Hr), Hslash.
    apply split_join; [exact Hc | discriminate |].
    constructor; [exact Hfirst|]. apply Forall_app. split.
    - rewrite Hp. apply resolve_fold_Forall; [constructor|].
      now apply Forall_pop.
    - constructor; [|constructor]. rewrite Hf.
      destruct (last rest) as [l|] eqn:Hl; simpl.
      + apply last_Some_elem_of in Hl. rewrite Forall_forall in Hrest.
        now apply Hrest.
      + intros d Hd. discriminate Hd. }
  destruct (new_total (FilePath.toString p) separator) as [q Hq].
  rewrite Hq. f_equal.
  destruct (new_fields _ _ _ Hq) as (first' & rest' & Hs' & Hsl' & Hr' & Hf' & Hp').
  rewrite Hsplit in Hs'. injection Hs' as <- <-.
  rewrite last_snoc in Hf'. simpl in Hf'.
  unfold pop in *. rewrite removelast_last in Hp'.
  rewrite resolve_fold_resolved_id in Hp' by exact (new_resolved _ _ _ Hnew).
  simpl in Hp'.
  assert (Hsl'' : FilePath.slash q = FilePath.slash p) by now rewrite Hsl, Hsl'.
  rewrite Hsl'', <- Hr in Hr'.
  destruct p, q; simpl in *; now subst.
Qed.

Lemma new_toString_idempotent_witness :
  FilePath.new
    (VString (FilePath.toString (FilePath.mk "\" "C:\" ["b"; "d"] "f.js")))
    (Some "\") =
  Normal (FilePath.mk "\" "C:\" ["b"; "d"] "f.js").
Proof.
  apply (new_toString_idempotent "C:/a/../b\.\c/../d/f.js" (Some "\")).
  - right. now right.
  - reflexivity.
Defined.

(** * Further properties of the directory lister *)

Section LsListing.
Context (F : IO.fs) (dir : string) (recurse : Z).

Local Abbreviation entered' := (IO.entered F dir recurse).
Local Abbreviation listed' := (IO.listed F dir recurse).
Local Abbreviation lists := (IO.always_lists F recurse).
Local Abbreviation self' n :=
  (fun d r a => IO.ls_fuel F n d (Some r) (IO._allFiles a) (Some (IO._path a))).

Lemma for_files_lists n path files file x :
  entered' path ->
  IO.readdirSync F (join "/" path) = Normal files ->
  (Z.to_nat (recurse - Z.of_nat (length path)) < S n)%nat ->
  (forall a a1, IO._path a = path ->
     IO.ls_entry F (self' n) recurse a file = IO.Ok a1 -> In x (IO._allFiles a1)) ->
  forall rest a a',
    incl rest files ->
    In file rest ->
    IO._path a = path ->
    IO.for_files (IO.ls_entry F (self' n) recurse) rest a = IO.Ok a' ->
    In x (IO._allFiles a').
Proof.
  intros He Hr Hfuel Hfile rest.
  induction rest as [|f rest IH]; intros a a' Hincl Hin Hp Hrun; [destruct Hin|].
  simpl in Hrun.
  pose proof (ls_entry_outcome F dir recurse n (ls_fuel_outcome F dir recurse n)
                path files f a He Hr (Hincl f (or_introl eq_refl)) Hfuel Hp) as H1.
  destruct (IO.ls_entry F (self' n) recurse a f) as [a1|e|] eqn:E;
    simpl in Hrun; [|discriminate|discriminate].
  assert (Hrest : incl rest files) by (intros y Hy; apply Hincl; now right).
  destruct Hin as [->|Hin].
  - pose proof (for_files_outcome F dir recurse n (ls_fuel_outcome F dir recurse n)
                  path files He Hr Hfuel rest a1 Hrest (proj1 H1)) as H2.
    rewrite Hrun in H2. destruct H2 as [_ (new & -> & _)].
    apply in_or_app. left. now apply (Hfile a).
  - now apply (IH a1 a' Hrest Hin (proj1 H1)).
Qed.

Lemma ls_fuel_directory_ok n path all files ret a' :
  entered' path ->
  IO.readdirSync F (join "/" path) = Normal files ->
  IO.ls_fuel F (S n) (join "/" path) (Some recurse) all (Some path) = IO.Ok (ret, a') ->
  IO.for_files (IO.ls_entry F (self' n) recurse) files
    {| IO._allFiles := all; IO._path := path |} = IO.Ok a'.
Proof.
  intros He Hr. rewrite ls_fuel_directory;
    [|now apply (entered_not_empty F dir recurse)
     |now apply (entered_is_directory F dir recurse)].
  rewrite Hr. simpl.
  destruct (IO.for_files _ files _) as [a1|e|]; simpl; [|discriminate|discriminate].
  now intros [= _ ->].
Qed.

Lemma lists_at_entry path files file :
  entered' path ->
  IO.readdirSync F (join "/" path) = Normal files ->
  In file files ->
  IO.is_dot_file file = false ->
  IO.statSync F (join "/" path +:+ "/" +:+ file) = Normal {| IO.isDirectory := false |} ->
  lists path (replace "//" "/" (join "/" path +:+ "/" +:+ file)).
Proof.
  intros He Hr Hin Hdot Hs n all ret a' Hfuel Hrun. destruct n as [|n]; [lia|].
  apply (ls_fuel_directory_ok n path all files ret a' He Hr) in Hrun.
  apply (for_files_lists n path files file _ He Hr Hfuel) with
    (rest := files) (a := {| IO._allFiles := all; IO._path := path |});
    [|apply incl_refl|exact Hin|reflexivity|exact Hrun].
  intros a a1 Hp. unfold IO.ls_entry. rewrite Hdot, Hp, Hs. simpl.
  intros [= <-]. simpl. apply in_or_app. right. now left.
Qed.

Lemma lists_from_below path files file x :
  entered' path ->
  IO.readdirSync F (join "/" path) = Normal files ->
  In file files ->
  IO.is_dot_file file = false ->
  IO.statSync F (join "/" path +:+ "/" +:+ file) = Normal {| IO.isDirectory := true |} ->
  (Z.of_nat (length path) < recurse)%Z ->
  lists (path ++ [file]) x ->
  lists path x.
Proof.
  intros He Hr Hin Hdot Hs Hd Hsub n all ret a' Hfuel Hrun. destruct n as [|n]; [lia|].
  apply (ls_fuel_directory_ok n path all files ret a' He Hr) in Hrun.
  apply (for_files_lists n path files file _ He Hr Hfuel) with
    (rest := files) (a := {| IO._allFiles := all; IO._path := path |});
    [|apply incl_refl|exact Hin|reflexivity|exact Hrun].
  intros a a1 Hp. unfold IO.ls_entry. rewrite Hdot, Hp, Hs. simpl.
  unfold push. rewrite length_app. simpl.
  destruct (Z.of_nat (length path + 1) - 1 <? recurse)%Z eqn:E;
    [|apply Z.ltb_ge in E; lia].
  destruct (IO.ls_fuel F n (join "/" (path ++ [file])) (Some recurse)
              (IO._allFiles a) (Some (path ++ [file]))) as [[ret1 a2]|e|] eqn:Hcall;
    simpl; [|discriminate|discriminate].
  intros [= <-]. simpl.
  apply (Hsub n (IO._allFiles a) ret1 a2); [|exact Hcall].
  rewrite length_app. simpl. lia.
Qed.

Lemma lists_at_start path x : entered' path -> lists path x -> lists [dir] x.
Proof.
  intros Hent.
  induction Hent as [Hstart|path files file He IH Hr Hin Hdot Hs Hd];
    intros Hl; [exact Hl|].
  apply IH. now apply (lists_from_below path files file).
Qed.

Lemma listed_lists x : listed' x -> lists [dir] x.
Proof.
  intros (path & files & file & He & Hr & Hin & Hdot & Hs & ->).
  apply (lists_at_start path _ He). now apply (lists_at_entry path files file).
Qed.

Lemma ls_complete depth out x :
  default 1%Z depth = recurse ->
  IO.statSync F dir = Normal {| IO.isDirectory := true |} ->
  IO.ls F dir depth = IO.Ok out ->
  listed' x -> In x out.
Proof.
  intros Hdepth Hs Hout Hx.
  rewrite (ls_entry_point F dir recurse depth Hdepth), Hs in Hout.
  cbn [IO.isDirectory] in Hout.
  pose proof (ls_fuel_outcome F dir recurse (IO.fuel_for depth) [dir] []
                (IO.entered_start F dir recurse Hs)
                (fuel_for_enough dir recurse depth Hdepth)) as Hc.
  change (join "/" [dir]) with dir in Hc.
  destruct (IO.ls_fuel F (IO.fuel_for depth) dir (Some recurse) [] (Some [dir]))
    as [[ret a']|e|] eqn:Hcall; simpl in Hout; [|discriminate|discriminate].
  injection Hout as <-. destruct Hc as [-> _].
  apply (listed_lists x Hx (IO.fuel_for depth) [] (IO._allFiles a') a'); [|exact Hcall].
  now apply fuel_for_enough.
Qed.

End LsListing.

Lemma entered_deeper F dir d d' path :
  (d <= d')%Z -> IO.entered F dir d path -> IO.entered F dir d' path.
Proof.
  intros Hd H.
  induction H as [Hs|path files file He IH Hr Hin Hdot Hs Hlt].
  - now constructor.
  - apply (IO.entered_sub F dir d' path files file); auto. lia.
Qed.

Lemma listed_deeper F dir d d' x :
  (d <= d')%Z -> IO.listed F dir d x -> IO.listed F dir d' x.
Proof.
  intros Hd (path & files & file & He & H).
  exists path, files, file. split; [|exact H].
  now apply (entered_deeper F dir d d').
Qed.

(** X7: when the start path is a directory and [IO.ls] returns, the paths
    that it returns are exactly the paths of the plain entries that are
    not dot files of the directories entered within the depth bound: none
    is left out. *)
Theorem ls_lists_exactly (F : IO.fs) (dir : string) (depth : option Z)
    (out : list string) :
  IO.statSync F dir = Normal {| IO.isDirectory := true |} ->
  IO.ls F dir depth = IO.Ok out ->
  forall x, In x out <-> IO.listed F dir (default 1%Z depth) x.
Proof.
  intros Hs Hout x. split.
  - intros Hin.
    pose proof (ls_outcome F dir (default 1%Z depth) depth eq_refl) as H.
    rewrite Hout in H. destruct H as [[H _]|[_ H]]; [congruence|].
    rewrite List.Forall_forall in H. now apply H.
  - now apply (ls_complete F dir (default 1%Z depth) depth out x).
Qed.

Lemma ls_lists_exactly_witness :
  In "root/sub/y.js" ["root/x.js"; "root/sub/y.js"] <->
  IO.listed (IO.example_fs (IO.root_entries IO.sub_entries)) "root" 2 "root/sub/y.js".
Proof.
  apply (ls_lists_exactly (IO.example_fs (IO.root_entries IO.sub_entries))
           "root" (Some 2%Z)); reflexivity.
Defined.

(** X8: a larger depth loses nothing: when [IO.ls] returns for two
    depths, what it returns for the smaller is among what it returns for
    the larger; and when it throws for the smaller it throws for the
    larger. *)
Theorem ls_depth_monotone (F : IO.fs) (dir : string) (d d' : Z) :
  (d <= d')%Z ->
  (forall out out',
     IO.ls F dir (Some d) = IO.Ok out ->
     IO.ls F dir (Some d') = IO.Ok out' ->
     incl out out') /\
  (Spec.fails F dir (Some d) -> Spec.fails F dir (Some d')).
Proof.
  intros Hd. split.
  - intros out out' Hout Hout' x Hx.
    pose proof (ls_outcome F dir d (Some d) eq_refl) as H.
    pose proof (ls_outcome F dir d' (Some d') eq_refl) as H'.
    rewrite Hout in H. rewrite Hout' in H'.
    destruct H as [[Hs ->]|[Hs Hl]]; destruct H' as [[Hs' ->]|[Hs' Hl']];
      try congruence.
    apply (ls_complete F dir d' (Some d') out' x eq_refl Hs' Hout').
    apply (listed_deeper F dir d d' x Hd).
    rewrite List.Forall_forall in Hl. now apply Hl.
  - intros [e He].
    pose proof (ls_outcome F dir d (Some d) eq_refl) as H. rewrite He in H.
    apply (ls_raises F dir d' (Some d') eq_refl e).
    destruct H as [H|[(path & Hp & Hr)|(path & files & file & Hp & Hrest)]].
    + now left.
    + right. left. exists path. split; [|exact Hr].
      now apply (entered_deeper F dir d d').
    + right. right. exists path, files, file. split; [|exact Hrest].
      now apply (entered_deeper F dir d d').
Qed.

Lemma ls_depth_monotone_witness :
  incl ["root/x.js"] ["root/x.js"; "root/sub/y.js"].
Proof.
  apply (proj1 (ls_depth_monotone (IO.example_fs (IO.root_entries IO.sub_entries))
                  "root" 1 2 ltac:(lia))); reflexivity.
Defined.

Lemma flat_listing_cons F dir file rest :
  IO.flat_listing F dir (file :: rest) =
  (if negb (IO.is_dot_file file) && negb (IO.entry_is_directory F dir file)
   then [replace "//" "/" (dir +:+ "/" +:+ file)] else []) ++
  IO.flat_listing F dir rest.
Proof.
  unfold IO.flat_listing. cbn [List.filter].
  now destruct (negb (IO.is_dot_file file) && negb (IO.entry_is_directory F dir file)).
Qed.

Lemma ls_entry_flat F dir recurse self all file :
  (recurse <= 1)%Z ->
  (IO.is_dot_file file = false ->
   exists s, IO.statSync F (dir +:+ "/" +:+ file) = Normal s) ->
  IO.ls_entry F self recurse {| IO._allFiles := all; IO._path := [dir] |} file =
  IO.Ok {| IO._allFiles :=
             all ++ (if negb (IO.is_dot_file file) &&
                        negb (IO.entry_is_directory F dir file)
                     then [replace "//" "/" (dir +:+ "/" +:+ file)] else []);
           IO._path := [dir] |}.
Proof.
  intros Hr Hstat. unfold IO.ls_entry, IO.entry_is_directory.
  cbn [IO._path IO._allFiles]. change (join "/" [dir]) with dir.
  destruct (IO.is_dot_file file) eqn:Hdot.
  - simpl. now rewrite app_nil_r.
  - destruct (Hstat eq_refl) as [[[|]] Hs]; rewrite Hs; simpl.
    + destruct (Z.of_nat 2 - 1 <? recurse)%Z eqn:E; [apply Z.ltb_lt in E; lia|].
      simpl. now rewrite app_nil_r.
    + reflexivity.
Qed.

Lemma for_files_flat F dir recurse self :
  (recurse <= 1)%Z ->
  forall rest all,
    (forall file, In file rest -> IO.is_dot_file file = false ->
       exists s, IO.statSync F (dir +:+ "/" +:+ file) = Normal s) ->
    IO.for_files (IO.ls_entry F self recurse)
      rest {| IO._allFiles := all; IO._path := [dir] |} =
    IO.Ok {| IO._allFiles := all ++ IO.flat_listing F dir rest; IO._path := [dir] |}.
Proof.
  intros Hr rest. induction rest as [|file rest IH]; intros all Hstat.
  - simpl. unfold IO.flat_listing. simpl. now rewrite app_nil_r.
  - cbn [IO.for_files].
    rewrite (ls_entry_flat F dir recurse self all file Hr)
      by (apply Hstat; now left).
    simpl mbind. unfold mbind, IO.result_bind.
    rewrite IH by (intros f Hf; apply Hstat; now right).
    now rewrite flat_listing_cons, app_assoc.
Qed.

(** X9: with a depth of at most 1, given or not, [IO.ls] of a directory
    whose entries all have a status returns the paths of its entries that
    are neither dot files nor directories, in the order in which the
    directory was read. *)
Theorem ls_flat (F : IO.fs) (dir : string) (depth : option Z) (files : list string) :
  (default 1%Z depth <= 1)%Z ->
  IO.statSync F dir = Normal {| IO.isDirectory := true |} ->
  IO.readdirSync F dir = Normal files ->
  (forall file, In file files -> IO.is_dot_file file = false ->
     exists s, IO.statSync F (dir +:+ "/" +:+ file) = Normal s) ->
  IO.ls F dir depth = IO.Ok (IO.flat_listing F dir files).
Proof.
  intros Hd Hs Hr Hstat.
  rewrite (ls_entry_point F dir (default 1%Z depth) depth eq_refl), Hs.
  cbn [IO.isDirectory]. unfold IO.fuel_for.
  rewrite ls_fuel_directory by (simpl; lia || exact Hs).
  rewrite Hr. cbn [IO.lift]. simpl mbind at 1.
  unfold mbind at 2, IO.result_bind at 2.
  rewrite (for_files_flat F dir (default 1%Z depth) _ Hd files [] Hstat).
  reflexivity.
Qed.

Lemma ls_flat_witness :
  IO.ls (IO.example_fs (IO.root_entries IO.sub_entries)) "root" None =
  IO.Ok (IO.flat_listing (IO.example_fs (IO.root_entries IO.sub_entries)) "root"
           ["x.js"; "sub"]).
Proof.
  apply (ls_flat (IO.example_fs (IO.root_entries IO.sub_entries)) "root" None).
  - simpl. lia.
  - reflexivity.
  - reflexivity.
  - intros file [<-|[<-|[]]] _; eexists; vm_compute; reflexivity.
Defined.

(** * Properties of the rest of [IO] *)

(** ** [IO.includeDir] *)

Lemma lower_unit_ascii c :
  (nat_of_ascii (lower_ascii c) <? 128)%nat = true -> lower_unit c = lower_ascii c.
Proof.
  intros H.
  destruct c as [[|] [|] [|] [|] [|] [|] [|] [|]];
    vm_compute in H; first [reflexivity | discriminate H].
Qed.

Lemma lower_ascii_dot c : lower_ascii c = "."%char -> c = "."%char.
Proof.
  intros H.
  destruct c as [[|] [|] [|] [|] [|] [|] [|] [|]];
    vm_compute in H; first [reflexivity | discriminate H].
Qed.

Lemma ends_with_js file :
  IO.ends_with_ci ".js" file = true ->
  exists pre c2 c3,
    file = pre +:+ "." +:+ String c2 (String c3 "") /\
    lower_ascii c2 = "j"%char /\ lower_ascii c3 = "s"%char.
Proof.
  induction file as [|c rest IH]; [discriminate|].
  cbn [IO.ends_with_ci]. intros H. apply orb_true_iff in H as [H|H].
  - apply String.eqb_eq in H.
    destruct rest as [|c2 [|c3 [|c4 rest]]]; try discriminate H.
    injection H as H1 H2 H3. apply lower_ascii_dot in H1. subst c.
    now exists "", c2, c3.
  - destruct (IH H) as (pre & c2 & c3 & -> & H2 & H3).
    now exists (String c pre), c2, c3.
Qed.

Lemma include_loop_filter {W} (load : string -> W -> completion W) lib w :
  IO.include_loop load lib w =
  IO.load_all load (List.filter (IO.ends_with_ci ".js") lib) w.
Proof.
  revert w. induction lib as [|file lib IH]; intros w; [reflexivity|].
  cbn [IO.include_loop List.filter].
  destruct (IO.ends_with_ci ".js" file).
  - cbn [IO.load_all]. destruct (load file w) as [w'|e]; simpl; [apply IH | reflexivity].
  - simpl. apply IH.
Qed.

(** X10: [IO.includeDir] does nothing for an empty path; it throws what
    [IO.ls] throws, and then loads nothing; otherwise it loads, in the
    order of the listing and up to the first script that throws, exactly
    the listed files whose name ends in [.js], whatever the case of the
    letters; and each file that it loads has the extension [js] for
    [FilePath.fileExtension]. *)
Theorem includeDir_loads_js {W : Type} (load : string -> W -> completion W)
    (pwd : string) (F : IO.fs) :
  (forall w, IO.includeDir load pwd F "" w = IO.Ok w) /\
  (forall path w e,
     truthy path = true ->
     IO.ls F (pwd +:+ path) None = IO.Raise e ->
     IO.includeDir load pwd F path w = IO.Raise e) /\
  (forall path w lib,
     truthy path = true ->
     IO.ls F (pwd +:+ path) None = IO.Ok lib ->
     IO.includeDir load pwd F path w =
     IO.load_all load (List.filter (IO.ends_with_ci ".js") lib) w) /\
  (forall file,
     IO.ends_with_ci ".js" file = true ->
     FilePath.fileExtension file = Normal "js").
Proof.
  split; [reflexivity|]. split; [|split].
  - intros path w e Hp Hls. unfold IO.includeDir. now rewrite Hp, Hls.
  - intros path w lib Hp Hls. unfold IO.includeDir. rewrite Hp, Hls. simpl.
    apply include_loop_filter.
  - intros file H.
    destruct (ends_with_js file H) as (pre & c2 & c3 & -> & H2 & H3).
    unfold FilePath.fileExtension, popped.
    rewrite last_split_after_dot.
    + cbn [toLowerCase].
      rewrite (lower_unit_ascii c2), (lower_unit_ascii c3), H2, H3;
        rewrite ?H2, ?H3; reflexivity.
    + cbn [Spec.occurs]. rewrite orb_false_r. apply orb_false_iff.
      split; apply Ascii.eqb_neq; intros <-.
      * vm_compute in H2. discriminate H2.
      * vm_compute in H3. discriminate H3.
Qed.

Lemma includeDir_loads_js_witness :
  IO.includeDir (fun file w => Normal (file :: w)) "" 
    (IO.tree_fs (IO.Dir [("lib", IO.Dir [("a.JS", IO.File); ("b.json", IO.File);
                                         ("c.js", IO.File)])]))
    "lib" [] =
  IO.Ok ["lib/c.js"; "lib/a.JS"].
Proof.
  rewrite (proj1 (proj2 (proj2 (includeDir_loads_js
             (fun file w => Normal (file :: w)) ""
             (IO.tree_fs (IO.Dir [("lib", IO.Dir [("a.JS", IO.File); ("b.json", IO.File);
                                                  ("c.js", IO.File)])])))))
             "lib" [] ["lib/a.JS"; "lib/b.json"; "lib/c.js"]);
    reflexivity.
Defined.

(** ** [IO.mkPath] *)

Lemma take_snoc_prefix {A} (pre : list A) (x : A) (rest : list A) :
  take (S (length pre)) (pre ++ x :: rest) = pre ++ [x].
Proof. induction pre as [|y pre IH]; simpl; [reflexivity | now rewrite IH]. Qed.

Section MkPathProperties.
Context {D : Type} (G : IO.wfs D).

Lemma mkPath_loop_prefixes rest :
  forall pre d,
    IO.mkPath_loop G rest
      (match pre with [] => "" | _ :: _ => join "/" pre +:+ "/" end) d =
    IO.ensure_all G
      (map (IO.made_at (pre ++ rest)) (seq (length pre) (length rest))) d.
Proof.
  induction rest as [|name rest IH]; intros pre d; [reflexivity|].
  cbn [IO.mkPath_loop length seq map IO.ensure_all].
  set (m := _ +:+ (name +:+ "/")).
  assert (Hm : m = join "/" (pre ++ [name]) +:+ "/").
  { subst m. rewrite join_snoc. destruct pre as [|x pre]; simpl length.
    - reflexivity.
    - change (0 <? S (length pre))%nat with true. cbv iota.
      now rewrite !append_assoc. }
  assert (Hat : IO.made_at (pre ++ name :: rest) (length pre) = m).
  { unfold IO.made_at. now rewrite take_snoc_prefix, Hm. }
  assert (Hnext : forall d1,
    IO.mkPath_loop G rest m d1 =
    IO.ensure_all G
      (map (IO.made_at (pre ++ name :: rest)) (seq (S (length pre)) (length rest))) d1).
  { intros d1. specialize (IH (pre ++ [name]) d1).
    rewrite <- app_assoc, length_app, Nat.add_1_r in IH.
    change ([name] ++ rest) with (name :: rest) in IH.
    rewrite <- IH. f_equal. rewrite Hm. now destruct pre. }
  rewrite Hat. unfold IO.ensure, IO.makeDir.
  destruct (IO.exists_ G m d); simpl; [apply Hnext|].
  destruct (IO.w_mkdirSync G d m) as [d'|e]; simpl; [apply Hnext | reflexivity].
Qed.

Lemma ensure_all_exists paths :
  IO.mkdir_makes G ->
  forall d d',
    IO.ensure_all G paths d = Normal d' ->
    (forall p, In p paths -> IO.exists_ G p d' = true) /\
    (forall q, IO.exists_ G q d = true -> IO.exists_ G q d' = true) /\
    IO.ensure_all G paths d' = Normal d'.
Proof.
  intros Hmk. induction paths as [|path paths IH]; intros d d' H.
  - injection H as <-. repeat split; [intros p []|auto].
  - cbn [IO.ensure_all] in *. unfold IO.ensure in *.
    destruct (IO.exists_ G path d) eqn:Hex.
    + destruct (IH d d' H) as (H1 & H2 & H3).
      rewrite (H2 path Hex). repeat split; auto.
      intros p [<-|Hp]; auto.
    + destruct (IO.w_mkdirSync G d path) as [d1|e] eqn:Hm; [|discriminate].
      destruct (Hmk d path d1 Hm) as [Hp1 Hmono].
      destruct (IH d1 d' H) as (H1 & H2 & H3).
      rewrite (H2 path Hp1). repeat split; auto.
      intros p [<-|Hp]; auto.
Qed.

End MkPathProperties.

(** X11: [IO.mkPath] looks in turn at each prefix of the names, every name
    followed by a separator, and makes those that do not exist, up to the
    first that cannot be made; a string is split on both separators first.
    When making a directory makes it exist and removes nothing, after
    [mkPath] has returned every prefix exists, what existed still does,
    and a second [mkPath] changes nothing. *)
Theorem mkPath_makes_prefixes {D : Type} (G : IO.wfs D) :
  (forall names d,
     IO.mkPath G (IO.PathArray names) d =
     IO.ensure_all G (map (IO.made_at names) (seq 0 (length names))) d) /\
  (forall s d,
     IO.mkPath G (IO.PathString s) d =
     IO.mkPath G (IO.PathArray (split FilePath.is_slash s)) d) /\
  (IO.mkdir_makes G ->
   forall names d d',
     IO.mkPath G (IO.PathArray names) d = Normal d' ->
     (forall k, (k < length names)%nat ->
        IO.exists_ G (IO.made_at names k) d' = true) /\
     (forall q, IO.exists_ G q d = true -> IO.exists_ G q d' = true) /\
     IO.mkPath G (IO.PathArray names) d' = Normal d').
Proof.
  assert (H1 : forall names d,
     IO.mkPath G (IO.PathArray names) d =
     IO.ensure_all G (map (IO.made_at names) (seq 0 (length names))) d).
  { intros names d. exact (mkPath_loop_prefixes G names [] d). }
  split; [exact H1|]. split; [reflexivity|].
  intros Hmk names d d' H. rewrite H1 in *.
  destruct (ensure_all_exists G _ Hmk d d' H) as (Hall & Hmono & Hagain).
  split; [|split; [exact Hmono | exact Hagain]].
  intros k Hk. apply Hall. apply in_map. apply in_seq. lia.
Qed.

Lemma dirs_fs_mkdir_makes : IO.mkdir_makes IO.dirs_fs.
Proof.
  intros d path d'. unfold IO.exists_. simpl.
  destruct (truthy path); [|discriminate]. intros [= <-]. split.
  - rewrite bool_decide_true; [reflexivity | apply list_elem_of_here].
  - intros q. destruct (bool_decide (q ∈ d)) eqn:E; [|discriminate].
    apply bool_decide_eq_true in E. intros _.
    rewrite bool_decide_true; [reflexivity | now apply list_elem_of_further].
Qed.

Lemma mkPath_makes_prefixes_witness :
  IO.mkPath IO.dirs_fs (IO.PathArray [""; "out"; "symbols"])
    ["/out/symbols/"; "/out/"; "/"] =
  Normal ["/out/symbols/"; "/out/"; "/"].
Proof.
  apply (proj2 (proj2 (mkPath_makes_prefixes IO.dirs_fs)) dirs_fs_mkdir_makes
           [""; "out"; "symbols"] ["/"]).
  reflexivity.
Defined.

(** ** [IO.setEncoding] *)









(** * Properties of [FileWriter] *)

Lemma substring_length n m s :
  n + m <= String.length s -> String.length (String.substring n m s) = m.
Proof.
  revert n m. induction s as [|c s IH]; intros n m H; simpl in H.
  - assert (n = 0) as -> by lia. assert (m = 0) as -> by lia. reflexivity.
  - destruct n as [|n]; simpl.
    + destruct m as [|m]; simpl; [reflexivity|]. rewrite IH; lia.
    + apply IH. lia.
Qed.

(** X13: on a writer that was opened, [append] of a string alone writes
    the string; with [from] and [to] it writes the [to] characters that
    start at [from], so that [to] counts characters and is no end index;
    a [to] of 0 is as none; and before [open] both [write] and [append]
    throw and write nothing. *)
Theorem append_writes_chunk (path : string) (mode : value) (str : string) :
  (FileWriter.append str None None (FileWriter.open path mode FileWriter.new) =
   FileWriter.write str (FileWriter.open path mode FileWriter.new)) /\
  (forall from to,
     (0 <= from)%Z -> (0 < to)%Z ->
     (from + to <= Z.of_nat (String.length str))%Z ->
     FileWriter.append str (Some from) (Some to)
       (FileWriter.open path mode FileWriter.new) =
     FileWriter.write (String.substring (Z.to_nat from) (Z.to_nat to) str)
       (FileWriter.open path mode FileWriter.new) /\
     String.length (String.substring (Z.to_nat from) (Z.to_nat to) str) = Z.to_nat to) /\
  (forall from this,
     FileWriter.append str from (Some 0%Z) this = FileWriter.append str from None this) /\
  (forall from to,
     FileWriter.append str from to FileWriter.new = Throw TypeError /\
     FileWriter.write str FileWriter.new = Throw TypeError).
Proof.
  split; [|split; [|split]].
  - unfold FileWriter.append. f_equal. unfold substr.
    change (0 <? 0)%Z with false. cbv iota.
    etransitivity; [|apply substring_all]. f_equal; lia.
  - intros from to Hf Ht Hlen. split; [|apply substring_length; lia].
    unfold FileWriter.append. f_equal.
    assert (Hfrom : (if (from =? 0)%Z then 0%Z else from) = from).
    { destruct (Z.eqb_spec from 0); congruence. }
    assert (Hto : (if (to =? 0)%Z then Z.of_nat (String.length str) else to) = to).
    { destruct (Z.eqb_spec to 0); [lia | reflexivity]. }
    rewrite Hfrom, Hto. unfold substr.
    destruct (from <? 0)%Z eqn:E; [apply Z.ltb_lt in E; lia|].
    f_equal; lia.
  - reflexivity.
  - intros from to. split; reflexivity.
Qed.

Lemma append_writes_chunk_witness :
  FileWriter.append "abcdefgh" (Some 2%Z) (Some 4%Z)
    (FileWriter.open "out.txt" VUndefined FileWriter.new) =
  FileWriter.write "cdef" (FileWriter.open "out.txt" VUndefined FileWriter.new).
Proof.
  apply (proj1 (proj2 (append_writes_chunk "out.txt" VUndefined "abcdefgh")) 2%Z 4%Z);
    simpl; lia.
Defined.

(** * Properties of [LOG] *)

Lemma run_quiet calls L : LOG.run true calls L = L.
Proof.
  unfold LOG.run. induction calls as [|c calls IH]; [reflexivity|].
  simpl. now destruct c.
Qed.

Lemma run_call_fields L c :
  LOG.warnings (LOG.run_call false L c) = LOG.warnings L ++ LOG.warning_text c /\
  LOG.verbose (LOG.run_call false L c) = LOG.verbose L /\
  (forall o, LOG.out L = Some o ->
     LOG.out (LOG.run_call false L c) = Some (o ++ [LOG.out_text c]) /\
     LOG.console (LOG.run_call false L c) = LOG.console L) /\
  (LOG.out L = None ->
   LOG.out (LOG.run_call false L c) = None /\
   (LOG.verbose L = false ->
    LOG.console (LOG.run_call false L c) = LOG.console L ++ LOG.warning_text c)).
Proof.
  destruct L as [ws [|] [o|] con]; destruct c as [msg [e|]|msg];
    (split; [|split; [|split]]);
    cbv [LOG.run_call LOG.warn LOG.inform LOG.emit LOG.print push LOG.warnings
         LOG.verbose LOG.out LOG.console LOG.warning_text LOG.out_text head default];
    rewrite ?app_nil_r; try reflexivity; try (intros; discriminate);
    try (intros o' [= <-]; split; reflexivity);
    try (intros _; split; [reflexivity|]; intros; first [discriminate | reflexivity]).
Qed.

(** X14: when [JSDOC.opt.q] is set, no sequence of calls of [LOG.warn] and
    [LOG.inform] changes anything.  When it is not, [LOG.warnings] gains
    the texts of the calls of [warn], in their order, and nothing for
    [inform]; with [LOG.out] set every call writes its line there and
    nothing is printed; without it and not verbose, the warnings and only
    they are printed. *)
Theorem LOG_records_warnings (calls : list LOG.call) (L : LOG.t) :
  LOG.run true calls L = L /\
  LOG.warnings (LOG.run false calls L) =
    LOG.warnings L ++ concat (map LOG.warning_text calls) /\
  (forall o, LOG.out L = Some o ->
     LOG.out (LOG.run false calls L) = Some (o ++ map LOG.out_text calls) /\
     LOG.console (LOG.run false calls L) = LOG.console L) /\
  (LOG.out L = None -> LOG.verbose L = false ->
   LOG.console (LOG.run false calls L) =
     LOG.console L ++ concat (map LOG.warning_text calls)).
Proof.
  split; [apply run_quiet|]. unfold LOG.run.
  revert L. induction calls as [|c calls IH]; intros L.
  - simpl. rewrite !app_nil_r. repeat split; auto.
    now rewrite app_nil_r.
  - cbn [fold_left map concat].
    destruct (run_call_fields L c) as (Hw & Hv & Ho & Hn).
    destruct (IH (LOG.run_call false L c)) as (IHw & IHo & IHn).
    split; [|split].
    + now rewrite IHw, Hw, <- app_assoc.
    + intros o1 Hout. destruct (Ho o1 Hout) as [Ho1 Ho2].
      destruct (IHo _ Ho1) as [-> ->]. split; [|exact Ho2].
      now rewrite <- app_assoc.
    + intros Hout Hverb. destruct (Hn Hout) as [Hn1 Hn2].
      rewrite IHn by (congruence). rewrite Hn2 by exact Hverb.
      now rewrite <- app_assoc.
Qed.

Lemma LOG_records_warnings_witness :
  LOG.console
    (LOG.run false
       [LOG.Inform "loading"; LOG.Warn "no such tag" (Some (LOG.Build_error "a.js" "12"))]
       (LOG.Build_t [] false None [])) =
  [">> WARNING: a.js, line 12: no such tag"].
Proof.
  apply (proj2 (proj2 (proj2 (LOG_records_warnings
           [LOG.Inform "loading"; LOG.Warn "no such tag" (Some (LOG.Build_error "a.js" "12"))]
           (LOG.Build_t [] false None []))))); reflexivity.
Defined.

(** * Going up repeatedly *)

Lemma upDir_root_slash p :
  FilePath.root (FilePath.upDir p) = FilePath.root p /\
  FilePath.slash (FilePath.upDir p) = FilePath.slash p /\
  FilePath.file (FilePath.upDir p) = "".
Proof.
  unfold FilePath.upDir, FilePath.toDir.
  destruct p as [sl rt pa [|c fl]]; destruct pa; repeat split.
Qed.

Lemma pop_take {A} (l : list A) m :
  m <= length l -> pop (take m l) = take (m - 1) l.
Proof.
  intros H. unfold pop. rewrite removelast_firstn_len, length_take, take_take.
  f_equal. lia.
Qed.

(** X15: [upDir] called [k] times leaves the first segments of the path,
    [k] fewer than there were, and none when there were not as many: it
    stops at the root, and the path then prints as its root. *)
Theorem upDir_iterated (k : nat) (p : FilePath.t) :
  FilePath.path (Nat.iter k FilePath.upDir p) =
    take (length (FilePath.path p) - k) (FilePath.path p) /\
  (1 <= k -> length (FilePath.path p) <= k ->
   FilePath.toString (Nat.iter k FilePath.upDir p) = FilePath.root p).
Proof.
  assert (Hpath : forall k,
    FilePath.path (Nat.iter k FilePath.upDir p) =
    take (length (FilePath.path p) - k) (FilePath.path p)).
  { clear k. induction k as [|k IH]; simpl.
    - now rewrite Nat.sub_0_r, firstn_all.
    - rewrite upDir_path, IH, pop_take by lia. f_equal. lia. }
  assert (Hroot : forall k,
    FilePath.root (Nat.iter k FilePath.upDir p) = FilePath.root p).
  { clear k. induction k as [|k IH]; simpl; [reflexivity|].
    now rewrite (proj1 (upDir_root_slash _)). }
  split; [apply Hpath|]. intros Hk Hlen.
  unfold FilePath.toString. rewrite Hpath, Hroot.
  replace (length (FilePath.path p) - k) with 0 by lia. simpl.
  destruct k as [|k]; [lia|]. simpl.
  rewrite (proj2 (proj2 (upDir_root_slash _))).
  now rewrite !append_empty_r.
Qed.

Lemma upDir_iterated_witness :
  FilePath.toString
    (Nat.iter 5 FilePath.upDir (FilePath.mk "/" "C:/" ["a"; "b"] "f.js")) = "C:/".
Proof.
  apply (proj2 (upDir_iterated 5 (FilePath.mk "/" "C:/" ["a"; "b"] "f.js")));
    simpl; lia.
Defined.
